(** * Quiz engine: session selection, session runner and progress tracking

    A shallow embedding of [quiz-engine.js] (the SQLite-backed engine with
    back/forward review) and proofs of the properties its specification
    states about it.

    Conventions of the embedding.
    - JavaScript arrays are lists; [a[i]] is stdpp's [a !! i], whose [None]
      is JavaScript's [undefined].
    - [new Set(array)] is a [gset nat] built with [list_to_set].
    - [Math.random()] is an explicit random source carried in the state: an
      infinite sequence of naturals.  The only use the engine makes of it is
      [Math.floor(Math.random() * n)], which ranges over exactly [0 .. n-1];
      it is modelled as the next natural of the source reduced modulo [n],
      so every outcome of the real generator is the outcome of some source.
    - The global [let] variables of the script are the fields of [World];
      every function of the script is a computation over [World] that may
      throw, and the mutations made before a throw are kept, as in
      JavaScript.
    - Of the DOM only what decides control flow is kept: the active screen,
      whether the rendered options carry [onclick] handlers, the visibility
      of the Next button and the rank label on the completion screen.  The
      elements the script looks up by id are taken to exist, as in the
      page the kit ships; confetti, the modal sheet, the streak badge and
      the statistics bar are presentation and are left out.
    - [localStorage] holds the progress records as values (a record written
      with [JSON.stringify] and read back with [JSON.parse] is the same
      record); the remembered user name, stored by the script under the key
      [_lastUser], is a field of its own.
    - The question bank is the one [parseDB] loaded; it does not change
      while the page is used. *)

From stdpp Require Import gmap strings list.
From Stdlib Require Import ZArith.

Set Default Proof Using "Type".

(** ** Data model *)

(** A row of the [questions] table as [parseDB] builds it. *)
Record Question := mkQuestion {
  question : string;
  options : list string;
  correct : nat;
  funFact : string;
  wiki : string
}.

(** The per-user record kept in [localStorage]. *)
Record UserStats := mkUserStats {
  seenQuestions : list nat;
  correctQuestions : list nat;
  totalCorrect : nat;
  totalAnswered : nat
}.

(** [{ seenQuestions: [], correctQuestions: [], totalCorrect: 0,
      totalAnswered: 0 }] *)
Definition emptyStats : UserStats :=
  {| seenQuestions := []; correctQuestions := [];
     totalCorrect := 0; totalAnswered := 0 |}.

Definition QUESTIONS_PER_GAME : nat := 20.

(** ** The random source *)

Definition Rand : Type := nat → nat.

(** [Math.floor(Math.random() * n)] *)
Definition randomBelow (n : nat) (r : Rand) : nat * Rand :=
  (r 0 `mod` n, λ k, r (S k)).

(** ** Fisher-Yates shuffle *)

(** [[array[i], array[j]] = [array[j], array[i]]]: the right-hand side is
    read first, then [array[i]] and [array[j]] are written in that order.
    [shuffle] only calls it with [j ≤ i < array.length]; outside the array
    nothing is done here (JavaScript would store [undefined]). *)
Definition swap {A} (array : list A) (i j : nat) : list A :=
  match array !! i, array !! j with
  | Some x, Some y => <[j:=x]> (<[i:=y]> array)
  | _, _ => array
  end.

(** The loop [for (let i = ...; i > 0; i--)] entered with counter [i]. *)
Fixpoint shuffleFrom {A} (i : nat) (array : list A) (r : Rand) : list A * Rand :=
  match i with
  | 0 => (array, r)
  | S i' =>
      let '(j, r') := randomBelow (i + 1) r in
      shuffleFrom i' (swap array i j) r'
  end.

Definition shuffle {A} (array : list A) (r : Rand) : list A * Rand :=
  shuffleFrom (length array - 1) array r.

(** ** Session selector *)

(** [for (const i of src) { if (selected.length >= QUESTIONS_PER_GAME) break;
    selected.push(i); }] *)
Fixpoint pushUntilFull (selected src : list nat) : list nat :=
  match src with
  | [] => selected
  | i :: rest =>
      if decide (QUESTIONS_PER_GAME ≤ length selected) then selected
      else pushUntilFull (selected ++ [i]) rest
  end.

(** [questions.map((_, i) => i)] *)
Definition allIndices (questions : list Question) : list nat :=
  imap (λ i _, i) questions.

Definition seenSet (us : UserStats) : gset nat := list_to_set (seenQuestions us).
Definition correctSet (us : UserStats) : gset nat := list_to_set (correctQuestions us).

Definition unseenOf (questions : list Question) (us : UserStats) : list nat :=
  filter (λ i, i ∉ seenSet us) (allIndices questions).
Definition seenIncorrectOf (questions : list Question) (us : UserStats) : list nat :=
  filter (λ i, i ∈ seenSet us ∧ i ∉ correctSet us) (allIndices questions).
Definition seenCorrectOf (questions : list Question) (us : UserStats) : list nat :=
  filter (λ i, i ∈ correctSet us) (allIndices questions).

Definition selectSessionQuestions
    (questions : list Question) (us : UserStats) (r : Rand) : list nat * Rand :=
  let unseen := unseenOf questions us in
  let seenIncorrect := seenIncorrectOf questions us in
  let seenCorrect := seenCorrectOf questions us in
  let '(unseen, r) := shuffle unseen r in
  let '(seenIncorrect, r) := shuffle seenIncorrect r in
  let '(seenCorrect, r) := shuffle seenCorrect r in
  let selected := [] in
  let selected := pushUntilFull selected unseen in
  let selected := pushUntilFull selected seenIncorrect in
  let selected := pushUntilFull selected seenCorrect in
  shuffle selected r.

(** ** The state of the page *)

(** An entry of [answerHistory]. *)
Record HistoryEntry := mkHistoryEntry {
  questionIndex : option nat;
  selectedIndex : nat;
  isCorrect : bool;
  shuffledOptions : list nat;
  correctShuffled : Z
}.

Inductive Screen := loginScreen | gameScreen | completionScreen.

#[global] Instance Screen_eq_dec : EqDecision Screen.
Proof. solve_decision. Defined.

(** The global variables of the script, the browser state it depends on
    ([localStorage], the random generator) and the part of the DOM that
    decides which handlers can run. *)
Record World := mkWorld {
  questions : list Question;  (* [let questions = []], filled once by [parseDB] *)
  currentUser : option string;  (* [null] is [None] *)
  currentQuestionIndex : option nat;  (* [None] is [undefined], read past the end of [sessionQuestions] *)
  currentShuffledOptions : list nat;
  currentCorrectShuffled : Z;  (* an [indexOf] result, [-1] when absent *)
  sessionScore : nat;
  streak : nat;
  sessionQuestions : list nat;
  sessionAnswered : nat;
  userStats : UserStats;
  answerHistory : list (option HistoryEntry);  (* an array with holes *)
  viewingIndex : nat;
  browseReturnPosition : option nat;  (* [null] is [None] *)
  localStorage : gmap string UserStats;  (* the JSON records, by storage key *)
  lastUser : option string;  (* the [_lastUser] key of [localStorage] *)
  entropy : Rand;  (* what [Math.random] will return *)
  activeScreen : Screen;  (* the screen carrying the class [active] *)
  optionHandlers : bool;  (* the rendered options have [onclick] handlers *)
  nextBtnVisible : bool;  (* [nextBtn.style.display] is not ['none'] *)
  rankDisplay : string  (* the rank label put on the completion screen *)
}.

(** Assignments to one variable. *)
Definition set_currentUser (v : option string) (w : World) : World :=
  mkWorld (questions w) v (currentQuestionIndex w) (currentShuffledOptions w)
    (currentCorrectShuffled w) (sessionScore w) (streak w) (sessionQuestions
    w) (sessionAnswered w) (userStats w) (answerHistory w) (viewingIndex w)
    (browseReturnPosition w) (localStorage w) (lastUser w) (entropy w)
    (activeScreen w) (optionHandlers w) (nextBtnVisible w) (rankDisplay w).
Definition set_currentQuestionIndex (v : option nat) (w : World) : World :=
  mkWorld (questions w) (currentUser w) v (currentShuffledOptions w)
    (currentCorrectShuffled w) (sessionScore w) (streak w) (sessionQuestions
    w) (sessionAnswered w) (userStats w) (answerHistory w) (viewingIndex w)
    (browseReturnPosition w) (localStorage w) (lastUser w) (entropy w)
    (activeScreen w) (optionHandlers w) (nextBtnVisible w) (rankDisplay w).
Definition set_currentShuffledOptions (v : list nat) (w : World) : World :=
  mkWorld (questions w) (currentUser w) (currentQuestionIndex w) v
    (currentCorrectShuffled w) (sessionScore w) (streak w) (sessionQuestions
    w) (sessionAnswered w) (userStats w) (answerHistory w) (viewingIndex w)
    (browseReturnPosition w) (localStorage w) (lastUser w) (entropy w)
    (activeScreen w) (optionHandlers w) (nextBtnVisible w) (rankDisplay w).
Definition set_currentCorrectShuffled (v : Z) (w : World) : World :=
  mkWorld (questions w) (currentUser w) (currentQuestionIndex w)
    (currentShuffledOptions w) v (sessionScore w) (streak w) (sessionQuestions
    w) (sessionAnswered w) (userStats w) (answerHistory w) (viewingIndex w)
    (browseReturnPosition w) (localStorage w) (lastUser w) (entropy w)
    (activeScreen w) (optionHandlers w) (nextBtnVisible w) (rankDisplay w).
Definition set_sessionScore (v : nat) (w : World) : World :=
  mkWorld (questions w) (currentUser w) (currentQuestionIndex w)
    (currentShuffledOptions w) (currentCorrectShuffled w) v (streak w)
    (sessionQuestions w) (sessionAnswered w) (userStats w) (answerHistory w)
    (viewingIndex w) (browseReturnPosition w) (localStorage w) (lastUser w)
    (entropy w) (activeScreen w) (optionHandlers w) (nextBtnVisible w)
    (rankDisplay w).
Definition set_streak (v : nat) (w : World) : World :=
  mkWorld (questions w) (currentUser w) (currentQuestionIndex w)
    (currentShuffledOptions w) (currentCorrectShuffled w) (sessionScore w) v
    (sessionQuestions w) (sessionAnswered w) (userStats w) (answerHistory w)
    (viewingIndex w) (browseReturnPosition w) (localStorage w) (lastUser w)
    (entropy w) (activeScreen w) (optionHandlers w) (nextBtnVisible w)
    (rankDisplay w).
Definition set_sessionQuestions (v : list nat) (w : World) : World :=
  mkWorld (questions w) (currentUser w) (currentQuestionIndex w)
    (currentShuffledOptions w) (currentCorrectShuffled w) (sessionScore w)
    (streak w) v (sessionAnswered w) (userStats w) (answerHistory w)
    (viewingIndex w) (browseReturnPosition w) (localStorage w) (lastUser w)
    (entropy w) (activeScreen w) (optionHandlers w) (nextBtnVisible w)
    (rankDisplay w).
Definition set_sessionAnswered (v : nat) (w : World) : World :=
  mkWorld (questions w) (currentUser w) (currentQuestionIndex w)
    (currentShuffledOptions w) (currentCorrectShuffled w) (sessionScore w)
    (streak w) (sessionQuestions w) v (userStats w) (answerHistory w)
    (viewingIndex w) (browseReturnPosition w) (localStorage w) (lastUser w)
    (entropy w) (activeScreen w) (optionHandlers w) (nextBtnVisible w)
    (rankDisplay w).
Definition set_userStats (v : UserStats) (w : World) : World :=
  mkWorld (questions w) (currentUser w) (currentQuestionIndex w)
    (currentShuffledOptions w) (currentCorrectShuffled w) (sessionScore w)
    (streak w) (sessionQuestions w) (sessionAnswered w) v (answerHistory w)
    (viewingIndex w) (browseReturnPosition w) (localStorage w) (lastUser w)
    (entropy w) (activeScreen w) (optionHandlers w) (nextBtnVisible w)
    (rankDisplay w).
Definition set_answerHistory (v : list (option HistoryEntry)) (w : World) : World :=
  mkWorld (questions w) (currentUser w) (currentQuestionIndex w)
    (currentShuffledOptions w) (currentCorrectShuffled w) (sessionScore w)
    (streak w) (sessionQuestions w) (sessionAnswered w) (userStats w) v
    (viewingIndex w) (browseReturnPosition w) (localStorage w) (lastUser w)
    (entropy w) (activeScreen w) (optionHandlers w) (nextBtnVisible w)
    (rankDisplay w).
Definition set_viewingIndex (v : nat) (w : World) : World :=
  mkWorld (questions w) (currentUser w) (currentQuestionIndex w)
    (currentShuffledOptions w) (currentCorrectShuffled w) (sessionScore w)
    (streak w) (sessionQuestions w) (sessionAnswered w) (userStats w)
    (answerHistory w) v (browseReturnPosition w) (localStorage w) (lastUser w)
    (entropy w) (activeScreen w) (optionHandlers w) (nextBtnVisible w)
    (rankDisplay w).
Definition set_browseReturnPosition (v : option nat) (w : World) : World :=
  mkWorld (questions w) (currentUser w) (currentQuestionIndex w)
    (currentShuffledOptions w) (currentCorrectShuffled w) (sessionScore w)
    (streak w) (sessionQuestions w) (sessionAnswered w) (userStats w)
    (answerHistory w) (viewingIndex w) v (localStorage w) (lastUser w)
    (entropy w) (activeScreen w) (optionHandlers w) (nextBtnVisible w)
    (rankDisplay w).
Definition set_localStorage (v : gmap string UserStats) (w : World) : World :=
  mkWorld (questions w) (currentUser w) (currentQuestionIndex w)
    (currentShuffledOptions w) (currentCorrectShuffled w) (sessionScore w)
    (streak w) (sessionQuestions w) (sessionAnswered w) (userStats w)
    (answerHistory w) (viewingIndex w) (browseReturnPosition w) v (lastUser w)
    (entropy w) (activeScreen w) (optionHandlers w) (nextBtnVisible w)
    (rankDisplay w).
Definition set_lastUser (v : option string) (w : World) : World :=
  mkWorld (questions w) (currentUser w) (currentQuestionIndex w)
    (currentShuffledOptions w) (currentCorrectShuffled w) (sessionScore w)
    (streak w) (sessionQuestions w) (sessionAnswered w) (userStats w)
    (answerHistory w) (viewingIndex w) (browseReturnPosition w) (localStorage
    w) v (entropy w) (activeScreen w) (optionHandlers w) (nextBtnVisible w)
    (rankDisplay w).
Definition set_entropy (v : Rand) (w : World) : World :=
  mkWorld (questions w) (currentUser w) (currentQuestionIndex w)
    (currentShuffledOptions w) (currentCorrectShuffled w) (sessionScore w)
    (streak w) (sessionQuestions w) (sessionAnswered w) (userStats w)
    (answerHistory w) (viewingIndex w) (browseReturnPosition w) (localStorage
    w) (lastUser w) v (activeScreen w) (optionHandlers w) (nextBtnVisible w)
    (rankDisplay w).
Definition set_activeScreen (v : Screen) (w : World) : World :=
  mkWorld (questions w) (currentUser w) (currentQuestionIndex w)
    (currentShuffledOptions w) (currentCorrectShuffled w) (sessionScore w)
    (streak w) (sessionQuestions w) (sessionAnswered w) (userStats w)
    (answerHistory w) (viewingIndex w) (browseReturnPosition w) (localStorage
    w) (lastUser w) (entropy w) v (optionHandlers w) (nextBtnVisible w)
    (rankDisplay w).
Definition set_optionHandlers (v : bool) (w : World) : World :=
  mkWorld (questions w) (currentUser w) (currentQuestionIndex w)
    (currentShuffledOptions w) (currentCorrectShuffled w) (sessionScore w)
    (streak w) (sessionQuestions w) (sessionAnswered w) (userStats w)
    (answerHistory w) (viewingIndex w) (browseReturnPosition w) (localStorage
    w) (lastUser w) (entropy w) (activeScreen w) v (nextBtnVisible w)
    (rankDisplay w).
Definition set_nextBtnVisible (v : bool) (w : World) : World :=
  mkWorld (questions w) (currentUser w) (currentQuestionIndex w)
    (currentShuffledOptions w) (currentCorrectShuffled w) (sessionScore w)
    (streak w) (sessionQuestions w) (sessionAnswered w) (userStats w)
    (answerHistory w) (viewingIndex w) (browseReturnPosition w) (localStorage
    w) (lastUser w) (entropy w) (activeScreen w) (optionHandlers w) v
    (rankDisplay w).
Definition set_rankDisplay (v : string) (w : World) : World :=
  mkWorld (questions w) (currentUser w) (currentQuestionIndex w)
    (currentShuffledOptions w) (currentCorrectShuffled w) (sessionScore w)
    (streak w) (sessionQuestions w) (sessionAnswered w) (userStats w)
    (answerHistory w) (viewingIndex w) (browseReturnPosition w) (localStorage
    w) (lastUser w) (entropy w) (activeScreen w) (optionHandlers w)
    (nextBtnVisible w) v.

Definition set_seenQuestions (v : list nat) (us : UserStats) : UserStats :=
  mkUserStats v (correctQuestions us) (totalCorrect us) (totalAnswered us).
Definition set_correctQuestions (v : list nat) (us : UserStats) : UserStats :=
  mkUserStats (seenQuestions us) v (totalCorrect us) (totalAnswered us).
Definition set_totalCorrect (v : nat) (us : UserStats) : UserStats :=
  mkUserStats (seenQuestions us) (correctQuestions us) v (totalAnswered us).
Definition set_totalAnswered (v : nat) (us : UserStats) : UserStats :=
  mkUserStats (seenQuestions us) (correctQuestions us) (totalCorrect us) v.

(** ** Theme *)

Record Rank := mkRank { min : Z; label : string }.

Record Theme := mkTheme {
  storagePrefix : string;
  correctMessage : string;
  funFactLabel : string;
  confettiColors : list string;
  confettiStreakColors : list string;
  ranks : list Rank
}.

(** The defaults that [QUIZ_THEME] is merged over. *)
Definition defaultTheme : Theme := {|
  storagePrefix := "quiz_game";
  correctMessage := "✨ Correct! The gods are pleased!";
  funFactLabel := "📜 Did you know?";
  confettiColors := ["#d4af37"; "#f4e4a6"; "#996515"; "#ffffff"];
  confettiStreakColors := ["#d4af37"; "#f4e4a6"; "#996515"];
  ranks := [
    mkRank 100 "🏛️ Oracle of Delphi - Perfect Round!";
    mkRank 90 "⚡ Olympian Champion";
    mkRank 75 "🦁 Hero of Legend";
    mkRank 60 "⚔️ Worthy Warrior";
    mkRank 40 "📚 Eager Student";
    mkRank 0 "🌱 Humble Mortal"
  ]
|}.

(** ** Computations over the page state *)

Inductive Error := TypeError.

Inductive Outcome (A : Type) := Ret (a : A) | Throw (e : Error).
Arguments Ret {A} a.
Arguments Throw {A} e.

(** A function of the script: it returns or throws, and leaves a state
    behind in both cases. *)
Definition M (A : Type) : Type := World → Outcome A * World.

#[global] Instance M_ret : MRet M := λ A a w, (Ret a, w).
#[global] Instance M_bind : MBind M := λ A B f m w,
  match m w with
  | (Ret a, w') => f a w'
  | (Throw e, w') => (Throw e, w')
  end.

Definition get : M World := λ w, (Ret w, w).
Definition modify (f : World → World) : M () := λ w, (Ret (), f w).
Definition throw {A} (e : Error) : M A := λ w, (Throw e, w).

(** ** Array operations of the script *)

(** [array.indexOf(x)] *)
Definition indexOf (x : nat) (array : list nat) : Z :=
  match list_find (λ y, y = x) array with
  | Some (i, _) => Z.of_nat i
  | None => -1
  end.

(** [array.includes(x)] *)
Definition includes (x : nat) (array : list nat) : bool := bool_decide (x ∈ array).

(** [array[i] = x]: an index past the end extends the array with holes. *)
Definition arraySet {A} (array : list (option A)) (i : nat) (x : A) : list (option A) :=
  if decide (i < length array) then <[i:=Some x]> array
  else array ++ replicate (i - length array) None ++ [Some x].

(** [array[i]] on an array with holes. *)
Definition arrayGet {A} (array : list (option A)) (i : nat) : option A :=
  mjoin (array !! i).

(** [Math.round((num / den) * 100)], computed exactly: the nearest integer
    to [100 * num / den], halves rounded up.  The script only divides by
    [QUESTIONS_PER_GAME = 20]; there the exact value is the integer
    [5 * num], which the rounding errors of the two floating-point
    operations cannot move to another integer. *)
Definition roundedPercent (num den : nat) : Z :=
  ((2 * 100 * Z.of_nat num + Z.of_nat den) / (2 * Z.of_nat den))%Z.

(** [for (const r of theme.ranks) { if (percentage >= r.min) { rank = r.label;
    break; } }] starting from the empty [rank]. *)
Fixpoint findRank (table : list Rank) (percentage : Z) : string :=
  match table with
  | [] => EmptyString
  | r :: rest =>
      if decide (min r ≤ percentage)%Z then label r else findRank rest percentage
  end.

(** ** Progress updates made by [selectAnswer]

    The current question index is [undefined] only after [loadNextQuestion]
    has thrown; JavaScript would then store [undefined] in the progress
    arrays, which the arrays of numbers modelled here cannot hold, so they
    are left as they are in that case.  No handler calls [selectAnswer] in
    such a state (see [handlers_have_question]). *)

(** [if (!userStats.correctQuestions.includes(q)) userStats.correctQuestions.push(q);] *)
Definition pushCorrect (q : option nat) (us : UserStats) : UserStats :=
  match q with
  | Some q =>
      if includes q (correctQuestions us) then us
      else set_correctQuestions (correctQuestions us ++ [q]) us
  | None => us
  end.

(** [const correctIdx = userStats.correctQuestions.indexOf(q);
    if (correctIdx > -1) userStats.correctQuestions.splice(correctIdx, 1);] *)
Definition spliceCorrect (q : option nat) (us : UserStats) : UserStats :=
  match q with
  | Some q =>
      let correctIdx := indexOf q (correctQuestions us) in
      if decide (-1 < correctIdx)%Z
      then set_correctQuestions (delete (Z.to_nat correctIdx) (correctQuestions us)) us
      else us
  | None => us
  end.

(** [if (!userStats.seenQuestions.includes(q)) userStats.seenQuestions.push(q);] *)
Definition pushSeen (q : option nat) (us : UserStats) : UserStats :=
  match q with
  | Some q =>
      if includes q (seenQuestions us) then us
      else set_seenQuestions (seenQuestions us ++ [q]) us
  | None => us
  end.

(** The progress record after an answer to question [q]. *)
Definition answeredStats (q : option nat) (isCorrect : bool) (us : UserStats) : UserStats :=
  let us :=
    if isCorrect
    then let us := pushCorrect q us in set_totalCorrect (totalCorrect us + 1) us
    else spliceCorrect q us in
  let us := pushSeen q us in
  set_totalAnswered (totalAnswered us + 1) us.

(** The invariant of the progress record: [correctQuestions ⊆ seenQuestions]. *)
Definition correctWithinSeen (us : UserStats) : Prop :=
  ∀ i, i ∈ correctQuestions us → i ∈ seenQuestions us.

(** ** The engine *)

Section Engine.
Context (theme : Theme).

(** [`${theme.storagePrefix}_${username}`]; a [null] user prints as
    ["null"]. *)
Definition storageKey (username : option string) : string :=
  storagePrefix theme +:+ "_" +:+ default "null" username.

(** [getUserData]: the stored record, or fresh empty defaults when the
    key is absent. *)
Definition getUserData (username : string) (w : World) : UserStats :=
  match localStorage w !! storageKey (Some username) with
  | Some data => data
  | None => emptyStats
  end.

Definition saveUserData (username : option string) (data : UserStats) : M () :=
  modify (λ w, set_localStorage (<[storageKey username := data]> (localStorage w)) w).

Definition showScreen (screenId : Screen) : M () :=
  modify (set_activeScreen screenId).

(** [shuffle(array)] drawing from the page's random generator. *)
Definition shuffleM (array : list nat) : M (list nat) := λ w,
  let '(a, r) := shuffle array (entropy w) in (Ret a, set_entropy r w).

Definition selectSessionQuestionsM : M (list nat) := λ w,
  let '(selected, r) :=
    selectSessionQuestions (questions w) (userStats w) (entropy w) in
  (Ret selected, set_entropy r w).

(** The part of [updateNavButtons] that is kept: the Next button is
    hidden while browsing. *)
Definition updateNavButtons : M () :=
  w ← get;
  match browseReturnPosition w with
  | Some _ => modify (set_nextBtnVisible false)
  | None => mret ()
  end.

(** The local [percentage] of [showCompletionScreen]. *)
Definition percentage (w : World) : Z :=
  roundedPercent (sessionScore w) QUESTIONS_PER_GAME.

(** The mastery line appended to the rank label afterwards is
    presentation and is left out. *)
Definition showCompletionScreen : M () :=
  showScreen completionScreen;;
  w ← get;
  let rank := findRank (ranks theme) (percentage w) in
  modify (set_rankDisplay rank).

Definition loadNextQuestion : M () :=
  w ← get;
  if decide (QUESTIONS_PER_GAME ≤ sessionAnswered w) then showCompletionScreen
  else
    modify (set_viewingIndex (sessionAnswered w));;
    modify (set_currentQuestionIndex (sessionQuestions w !! sessionAnswered w));;
    w ← get;
    let question := currentQuestionIndex w ≫= (questions w !!.) in
    modify (set_currentShuffledOptions [0; 1; 2; 3]);;
    shuffled ← shuffleM [0; 1; 2; 3];
    modify (set_currentShuffledOptions shuffled);;
    match question with
    | None => throw TypeError (* [question.correct] of [undefined] *)
    | Some q =>
        modify (set_currentCorrectShuffled (indexOf (correct q) shuffled));;
        modify (set_optionHandlers true);;
        modify (set_nextBtnVisible false);;
        updateNavButtons
    end.

Definition selectAnswer (selectedIndex : nat) : M () :=
  w ← get;
  let question := currentQuestionIndex w ≫= (questions w !!.) in
  let isCorrect := bool_decide (Z.of_nat selectedIndex = currentCorrectShuffled w) in
  modify (set_optionHandlers false);;
  (if isCorrect then
     modify (λ w, set_sessionScore (sessionScore w + 1) w);;
     modify (λ w, set_streak (streak w + 1) w);;
     modify (λ w, set_userStats (pushCorrect (currentQuestionIndex w) (userStats w)) w);;
     modify (λ w, set_userStats
                    (set_totalCorrect (totalCorrect (userStats w) + 1) (userStats w)) w)
   else
     modify (set_streak 0);;
     modify (λ w, set_userStats (spliceCorrect (currentQuestionIndex w) (userStats w)) w));;
  modify (λ w, set_userStats (pushSeen (currentQuestionIndex w) (userStats w)) w);;
  modify (λ w, set_userStats
                 (set_totalAnswered (totalAnswered (userStats w) + 1) (userStats w)) w);;
  modify (λ w, set_answerHistory
                 (arraySet (answerHistory w) (viewingIndex w)
                    {| questionIndex := currentQuestionIndex w;
                       selectedIndex := selectedIndex;
                       isCorrect := isCorrect;
                       shuffledOptions := currentShuffledOptions w;
                       correctShuffled := currentCorrectShuffled w |}) w);;
  modify (λ w, set_sessionAnswered (sessionAnswered w + 1) w);;
  w ← get;
  saveUserData (currentUser w) (userStats w);;
  match question with
  | None => throw TypeError (* [question.wiki] of [undefined] *)
  | Some _ =>
      modify (set_nextBtnVisible true);;
      updateNavButtons
  end.

Definition showReviewQuestion (position : nat) : M () :=
  w ← get;
  match arrayGet (answerHistory w) position with
  | None => throw TypeError (* [entry.questionIndex] of [undefined] *)
  | Some entry =>
      match questionIndex entry ≫= (questions w !!.) with
      | None => throw TypeError (* [question.question] of [undefined] *)
      | Some _ =>
          modify (set_optionHandlers false);;
          modify (set_nextBtnVisible false);;
          updateNavButtons
      end
  end.

Definition goBack : M () :=
  w ← get;
  if decide (viewingIndex w ≤ 0) then mret ()
  else
    (match browseReturnPosition w with
     | None => modify (set_browseReturnPosition (Some (viewingIndex w)))
     | Some _ => mret ()
     end);;
    modify (λ w, set_viewingIndex (viewingIndex w - 1) w);;
    w ← get;
    showReviewQuestion (viewingIndex w).

Definition goForward : M () :=
  w ← get;
  match browseReturnPosition w with
  | None => mret ()
  | Some returnPos =>
      modify (λ w, set_viewingIndex (viewingIndex w + 1) w);;
      w ← get;
      if decide (returnPos ≤ viewingIndex w) then
        modify (set_browseReturnPosition None);;
        modify (set_viewingIndex returnPos);;
        w ← get;
        if decide (sessionAnswered w ≤ viewingIndex w) then loadNextQuestion
        else
          showReviewQuestion (viewingIndex w);;
          modify (set_nextBtnVisible true);;
          updateNavButtons
      else showReviewQuestion (viewingIndex w)
  end.

Definition nextQuestion : M () :=
  modify (set_browseReturnPosition None);;
  w ← get;
  if decide (QUESTIONS_PER_GAME ≤ sessionAnswered w) then showCompletionScreen
  else loadNextQuestion.

(** [confirmed] is the answer to the [confirm] dialog. *)
Definition resetProgress (confirmed : bool) : M () :=
  if confirmed then
    modify (set_userStats emptyStats);;
    w ← get;
    saveUserData (currentUser w) (userStats w);;
    modify (set_sessionScore 0);;
    modify (set_sessionAnswered 0);;
    modify (set_streak 0);;
    modify (set_answerHistory []);;
    modify (set_viewingIndex 0);;
    modify (set_browseReturnPosition None);;
    selected ← selectSessionQuestionsM;
    modify (set_sessionQuestions selected);;
    showScreen gameScreen;;
    loadNextQuestion
  else mret ().

Definition playAgain : M () :=
  modify (set_sessionScore 0);;
  modify (set_sessionAnswered 0);;
  modify (set_streak 0);;
  modify (set_answerHistory []);;
  modify (set_viewingIndex 0);;
  modify (set_browseReturnPosition None);;
  selected ← selectSessionQuestionsM;
  modify (set_sessionQuestions selected);;
  showScreen gameScreen;;
  loadNextQuestion.

Definition logout : M () :=
  modify (set_currentUser None);;
  modify (set_sessionScore 0);;
  modify (set_streak 0);;
  modify (set_sessionQuestions []);;
  modify (set_sessionAnswered 0);;
  modify (set_answerHistory []);;
  modify (set_viewingIndex 0);;
  modify (set_browseReturnPosition None);;
  modify (set_userStats emptyStats);;
  showScreen loginScreen.

(** [username] is the trimmed content of the name field. *)
Definition startGame (username : string) : M () :=
  if decide (username = EmptyString) then mret ()
  else
    modify (set_currentUser (Some username));;
    modify (set_lastUser (Some username));;
    modify (λ w, set_userStats (getUserData username w) w);;
    modify (set_sessionScore 0);;
    modify (set_sessionAnswered 0);;
    modify (set_streak 0);;
    modify (set_answerHistory []);;
    modify (set_viewingIndex 0);;
    modify (set_browseReturnPosition None);;
    selected ← selectSessionQuestionsM;
    modify (set_sessionQuestions selected);;
    showScreen gameScreen;;
    loadNextQuestion.

(** ** The page as an event system *)

(** What the user can do.  [selectAnswer] is only ever installed as the
    [onclick] handler of the four options that [loadNextQuestion] renders;
    the other functions are global and are taken to be callable at any
    time. *)
Inductive Event :=
| StartGame (username : string)
| ClickOption (displayIndex : nat)
| NextQuestion
| GoBack
| GoForward
| PlayAgain
| ResetProgress (confirmed : bool)
| Logout.

(** [None]: the page has no handler for the event in this state.  An
    option can be clicked when the game screen is shown and the options
    carry handlers. *)
Definition dispatch (e : Event) (w : World) : option (Outcome () * World) :=
  match e with
  | StartGame username => Some (startGame username w)
  | ClickOption displayIndex =>
      if decide (activeScreen w = gameScreen ∧ optionHandlers w = true
                 ∧ displayIndex < length (currentShuffledOptions w))
      then Some (selectAnswer displayIndex w) else None
  | NextQuestion => Some (nextQuestion w)
  | GoBack => Some (goBack w)
  | GoForward => Some (goForward w)
  | PlayAgain => Some (playAgain w)
  | ResetProgress confirmed => Some (resetProgress confirmed w)
  | Logout => Some (logout w)
  end.

(** An exception thrown by a handler is reported and the page goes on
    from the state the handler left. *)
Fixpoint run (events : list Event) (w : World) : option World :=
  match events with
  | [] => Some w
  | e :: rest =>
      match dispatch e w with
      | Some (_, w') => run rest w'
      | None => None
      end
  end.

(** The page once the script and the question bank are loaded. *)
Definition initialWorld (bank : list Question) (storage : gmap string UserStats)
    (remembered : option string) (r : Rand) : World :=
  {| questions := bank; currentUser := None; currentQuestionIndex := Some 0;
     currentShuffledOptions := []; currentCorrectShuffled := 0;
     sessionScore := 0; streak := 0; sessionQuestions := []; sessionAnswered := 0;
     userStats := emptyStats; answerHistory := []; viewingIndex := 0;
     browseReturnPosition := None; localStorage := storage;
     lastUser := remembered; entropy := r; activeScreen := loginScreen;
     optionHandlers := false; nextBtnVisible := false;
     rankDisplay := EmptyString |}.

Definition reachable (w : World) : Prop :=
  ∃ bank storage remembered r events,
    run events (initialWorld bank storage remembered r) = Some w.

End Engine.

(** ** Browsing *)

Inductive Navigation := Back | Forward.

Definition navigate (theme : Theme) (n : Navigation) : M () :=
  match n with
  | Back => goBack
  | Forward => goForward theme
  end.

(** A sequence of Back and Forward requests, each handled from the state
    the previous one left. *)
Fixpoint browse (theme : Theme) (ns : list Navigation) (w : World) : World :=
  match ns with
  | [] => w
  | n :: rest => browse theme rest (navigate theme n w).2
  end.

(** The fields that only [selectAnswer] and the session resets write. *)
Definition sameSession (w w' : World) : Prop :=
  questions w' = questions w
  ∧ currentUser w' = currentUser w
  ∧ sessionScore w' = sessionScore w
  ∧ streak w' = streak w
  ∧ sessionQuestions w' = sessionQuestions w
  ∧ sessionAnswered w' = sessionAnswered w
  ∧ userStats w' = userStats w
  ∧ answerHistory w' = answerHistory w
  ∧ localStorage w' = localStorage w.

(** ** Invariant of the session runner *)

(** What [loadNextQuestion] needs in order to leave the runner in a
    consistent state: the session is at most [QUESTIONS_PER_GAME] valid
    indices long, no more answers were given than it has questions, and
    clickable options on the game screen mean that a question is still to be
    answered. *)
Definition loadReady (w : World) : Prop :=
  sessionAnswered w ≤ length (sessionQuestions w)
  ∧ length (sessionQuestions w) ≤ QUESTIONS_PER_GAME
  ∧ (∀ i, i ∈ sessionQuestions w → i < length (questions w))
  ∧ (optionHandlers w = true → questions w ≠ [])
  ∧ (activeScreen w = gameScreen → optionHandlers w = true →
       sessionAnswered w < length (sessionQuestions w)).

(** In addition, clickable options belong to the question
    [currentQuestionIndex], which exists. *)
Definition sessionInvariant (w : World) : Prop :=
  loadReady w
  ∧ (activeScreen w = gameScreen → optionHandlers w = true →
       ∃ q, currentQuestionIndex w = Some q ∧ q < length (questions w)).

(** ** The earlier engine

    [quiz-engine.js] as it was before the ranks became part of the theme:
    the chain of comparisons of its [showCompletionScreen]. *)
Definition legacyRank (percentage : Z) : string :=
  if decide (percentage = 100)%Z then "🏛️ Oracle of Delphi - Perfect Round!"
  else if decide (90 ≤ percentage)%Z then "⚡ Olympian Champion"
  else if decide (75 ≤ percentage)%Z then "🦁 Hero of Legend"
  else if decide (60 ≤ percentage)%Z then "⚔️ Worthy Warrior"
  else if decide (40 ≤ percentage)%Z then "📚 Eager Student"
  else "🌱 Humble Mortal".

(** ** What the session state records

    The facts that tie the counters of a session to its history, its
    history to the selected questions, and the question on display to the
    session position. *)

(** The number of history entries judged correct. *)
Definition correctCount (history : list (option HistoryEntry)) : nat :=
  length (filter (λ e, isCorrect <$> e = Some true) history).

(** The entry at position [i] is about the [i]-th question of the session,
    and it is marked correct exactly when the option that was shown at the
    selected position is the correct option of that question. *)
Definition entryFaithful (w : World) (i : nat) (entry : HistoryEntry) : Prop :=
  ∃ q item,
    questionIndex entry = Some q
    ∧ sessionQuestions w !! i = Some q
    ∧ questions w !! q = Some item
    ∧ (isCorrect entry = true
       ↔ shuffledOptions entry !! selectedIndex entry = Some (correct item)).

(** The question on display is the next one to answer, shown outside
    browse mode under a permutation of its four options. *)
Definition liveQuestion (w : World) : Prop :=
  viewingIndex w = sessionAnswered w
  ∧ browseReturnPosition w = None
  ∧ ∃ q item,
      currentQuestionIndex w = Some q
      ∧ sessionQuestions w !! sessionAnswered w = Some q
      ∧ questions w !! q = Some item
      ∧ currentShuffledOptions w ≡ₚ [0; 1; 2; 3]
      ∧ currentCorrectShuffled w
        = indexOf (correct item) (currentShuffledOptions w).

Definition runnerInvariant (w : World) : Prop :=
  streak w ≤ sessionScore w
  ∧ sessionScore w = correctCount (answerHistory w)
  ∧ length (answerHistory w) = sessionAnswered w
  ∧ (∀ i e, answerHistory w !! i = Some e →
       ∃ entry, e = Some entry ∧ entryFaithful w i entry)
  ∧ viewingIndex w ≤ sessionAnswered w
  ∧ (∀ p, browseReturnPosition w = Some p → p ≤ sessionAnswered w)
  ∧ (activeScreen w = gameScreen → optionHandlers w = true → liveQuestion w)
  ∧ (activeScreen w ≠ loginScreen →
       Nat.min QUESTIONS_PER_GAME (length (questions w))
       ≤ length (sessionQuestions w))
  ∧ sessionAnswered w ≤ totalAnswered (userStats w)
  ∧ sessionScore w ≤ totalCorrect (userStats w)
  ∧ (∀ i q, i < sessionAnswered w → sessionQuestions w !! i = Some q →
       q ∈ seenQuestions (userStats w)).


(** ** The statistics bar

    What [updateStats] writes into the page: the score, the number of
    answers, [QUESTIONS_PER_GAME - sessionAnswered] and
    [sessionAnswered > 0 ? Math.round((sessionScore / sessionAnswered) * 100) : 0].
    The subtraction is the one of JavaScript numbers, so the remaining
    count is an integer that could be negative.  The accuracy is computed
    exactly, as [roundedPercent]: with at most [QUESTIONS_PER_GAME] answers
    in a session the exact value [100 * score / answered] is either at
    least 1/40 away from the nearest half, more than the two floating-point
    operations can move it, or it is a half itself, which takes a
    denominator 8 or 16, where both operations are exact.  The width of the
    progress bar, the unrounded floating-point value
    [(sessionAnswered / 20) * 100], is left out. *)
Record StatsDisplay := mkStatsDisplay {
  scoreDisplay : nat;
  answeredDisplay : nat;
  remainingDisplay : Z;
  accuracyDisplay : Z
}.

Definition updateStats (w : World) : StatsDisplay :=
  let accuracy :=
    if decide (0 < sessionAnswered w)
    then roundedPercent (sessionScore w) (sessionAnswered w)
    else 0%Z in
  let remaining := (Z.of_nat QUESTIONS_PER_GAME - Z.of_nat (sessionAnswered w))%Z in
  {| scoreDisplay := sessionScore w;
     answeredDisplay := sessionAnswered w;
     remainingDisplay := remaining;
     accuracyDisplay := accuracy |}.

(** ** Sample inputs *)

(** The three sample questions of [questions.js]. *)
Definition sampleQuestions : list Question := [
  {| question := "Sample question 1 - Replace with your content";
     options := ["Option A"; "Option B"; "Option C"; "Option D"];
     correct := 2;
     funFact := "This is an interesting fact about the answer that will be shown to the user after they answer.";
     wiki := "https://en.wikipedia.org/wiki/Example" |};
  {| question := "Sample question 2 - Replace with your content";
     options := ["Choice 1"; "Choice 2"; "Choice 3"; "Choice 4"];
     correct := 0;
     funFact := "Another fun fact that provides context and makes learning engaging.";
     wiki := "https://en.wikipedia.org/wiki/Example" |};
  {| question := "Sample question 3 - Replace with your content";
     options := ["Answer A"; "Answer B"; "Answer C"; "Answer D"];
     correct := 3;
     funFact := "Fun facts help reinforce learning and keep users engaged with your content.";
     wiki := "https://en.wikipedia.org/wiki/Example" |}
].

(** A bank of 27 questions: the samples, nine times over. *)
Definition largeBank : list Question := concat (replicate 9 sampleQuestions).

Definition sampleEntropy : Rand := λ k, 5 * k + 2.

(** The page of a first-time visitor, with the sample questions loaded. *)
Definition samplePage : World := initialWorld sampleQuestions ∅ None sampleEntropy.

(** The same visitor after entering the name "ann" and starting a game:
    the first question of the session is on display. *)
Definition firstQuestionPage : World := (startGame defaultTheme "ann" samplePage).2.

(** After a correct answer and a click on Next: the second question is on
    display, not yet answered. *)
Definition secondQuestionPage : World :=
  default samplePage
    (run defaultTheme [StartGame "ann"; ClickOption 1; NextQuestion] samplePage).

(** All three sample questions seen and answered correctly. *)
Definition allMastered : UserStats :=
  {| seenQuestions := [0; 1; 2]; correctQuestions := [0; 1; 2];
     totalCorrect := 3; totalAnswered := 3 |}.

(** A returning player who mastered every question starts a new game. *)
Definition returningPage : World :=
  (startGame defaultTheme "ann"
     (initialWorld sampleQuestions
        {[ storageKey defaultTheme (Some "ann") := allMastered ]}
        (Some "ann") sampleEntropy)).2.

(** Answering one question after the other: each click but the last is
    followed by a click on Next. *)
Fixpoint answers (clicks : list nat) : list Event :=
  match clicks with
  | [] => []
  | [c] => [ClickOption c]
  | c :: rest => ClickOption c :: NextQuestion :: answers rest
  end.

(** "ann" plays the three sample questions to the end. *)
Definition undersizedGame : list Event := StartGame "ann" :: answers [1; 0; 0].

Definition emptyBankPage : World := initialWorld [] ∅ None sampleEntropy.

Definition largePage : World := initialWorld largeBank ∅ None sampleEntropy.

(** "ann" answers twenty questions of the large bank, the first two wrongly
    and the other eighteen correctly. *)
Definition fullGame : list Event :=
  StartGame "ann"
  :: answers [1; 0; 1; 3; 1; 0; 0; 0; 3; 3; 1; 3; 3; 3; 0; 1; 1; 1; 2; 3].

Definition fullGamePage : World :=
  default largePage (run defaultTheme fullGame largePage).


(** A progress record, or a store, in good order: correct answers are
    among the seen ones and no index is listed twice. *)
Definition orderlyStats (us : UserStats) : Prop :=
  correctWithinSeen us ∧ NoDup (seenQuestions us) ∧ NoDup (correctQuestions us).

Definition orderlyProgress (w : World) : Prop :=
  orderlyStats (userStats w)
  ∧ (∀ key us, localStorage w !! key = Some us → orderlyStats us)
  ∧ NoDup (sessionQuestions w).

(** A stored record that lists question 0 as answered correctly but not as
    seen. *)
Definition correctButUnseen : UserStats :=
  {| seenQuestions := []; correctQuestions := [0];
     totalCorrect := 1; totalAnswered := 1 |}.

(** Question 2 seen and answered correctly, nothing else seen. *)
Definition masteredTwo : UserStats :=
  {| seenQuestions := [2]; correctQuestions := [2];
     totalCorrect := 1; totalAnswered := 1 |}.

(** Question 2 mastered, question 1 seen and missed. *)
Definition missedOne : UserStats :=
  {| seenQuestions := [2; 1]; correctQuestions := [2];
     totalCorrect := 1; totalAnswered := 2 |}.

(** * Properties *)

(** Closed decidable facts are settled by evaluating their decision
    procedure. *)
Ltac compute_decision :=
  apply (bool_decide_unpack _); vm_compute; exact I.

(** ** The shuffle permutes *)

Section ShuffleFacts.
Context {A : Type}.
Implicit Types (a : list A) (r : Rand).

Lemma insert_cons_Permutation a j x y :
  a !! j = Some y → y :: <[j:=x]> a ≡ₚ x :: a.
Proof.
  revert j. induction a as [|h t IH]; intros [|j] Hj; simplify_eq/=.
  - apply Permutation_swap.
  - rewrite (Permutation_swap h y), (IH j Hj). apply Permutation_swap.
Qed.

Lemma swap_Permutation a i j : swap a i j ≡ₚ a.
Proof.
  unfold swap.
  destruct (a !! i) as [x|] eqn:Hi; [|done].
  destruct (a !! j) as [y|] eqn:Hj; [|done].
  revert i j Hi Hj. induction a as [|h t IH]; intros [|i] [|j] Hi Hj; simplify_eq/=.
  - done.
  - by apply insert_cons_Permutation.
  - by apply insert_cons_Permutation.
  - f_equiv. by apply IH.
Qed.

Lemma shuffleFrom_Permutation i a r : (shuffleFrom i a r).1 ≡ₚ a.
Proof.
  revert a r. induction i as [|i IH]; intros a r; simpl; [done|].
  rewrite IH. apply swap_Permutation.
Qed.

Lemma shuffle_Permutation a r : (shuffle a r).1 ≡ₚ a.
Proof. apply shuffleFrom_Permutation. Qed.

Lemma shuffle_length a r : length (shuffle a r).1 = length a.
Proof. by rewrite shuffle_Permutation. Qed.
End ShuffleFacts.

(** ** The selector takes the first [QUESTIONS_PER_GAME] of the three
    categories in priority order *)

Lemma pushUntilFull_take selected src :
  pushUntilFull selected src
  = selected ++ take (QUESTIONS_PER_GAME - length selected) src.
Proof.
  revert selected. induction src as [|i rest IH]; intros selected; simpl.
  - by rewrite take_nil, app_nil_r.
  - case_decide as Hfull.
    + replace (QUESTIONS_PER_GAME - length selected) with 0 by lia.
      by rewrite app_nil_r.
    + rewrite IH, length_app. simpl.
      destruct (QUESTIONS_PER_GAME - length selected) as [|n] eqn:Hn; [lia|].
      replace (QUESTIONS_PER_GAME - (length selected + 1)) with n by lia.
      by rewrite <- app_assoc.
Qed.

Lemma pushUntilFull_three u i c :
  pushUntilFull (pushUntilFull (pushUntilFull [] u) i) c
  = take QUESTIONS_PER_GAME (u ++ i ++ c).
Proof.
  rewrite !pushUntilFull_take, !take_app, !length_app, !length_take.
  rewrite app_nil_l, <- app_assoc. simpl length.
  repeat (f_equal; try lia).
Qed.

Lemma allIndices_seq bank : allIndices bank = seq 0 (length bank).
Proof.
  unfold allIndices. etrans; [apply (imap_seq_0 bank id)|]. apply list_fmap_id.
Qed.

Lemma elem_of_allIndices bank i : i ∈ allIndices bank ↔ i < length bank.
Proof. rewrite allIndices_seq, elem_of_seq. lia. Qed.

Lemma elem_of_seenSet us i : i ∈ seenSet us ↔ i ∈ seenQuestions us.
Proof. unfold seenSet. by rewrite elem_of_list_to_set. Qed.

Lemma elem_of_correctSet us i : i ∈ correctSet us ↔ i ∈ correctQuestions us.
Proof. unfold correctSet. by rewrite elem_of_list_to_set. Qed.

Lemma elem_of_unseenOf bank us i :
  i ∈ unseenOf bank us ↔ i < length bank ∧ i ∉ seenQuestions us.
Proof.
  unfold unseenOf. rewrite list_elem_of_filter, elem_of_allIndices, elem_of_seenSet.
  tauto.
Qed.

Lemma elem_of_seenIncorrectOf bank us i :
  i ∈ seenIncorrectOf bank us
  ↔ i < length bank ∧ i ∈ seenQuestions us ∧ i ∉ correctQuestions us.
Proof.
  unfold seenIncorrectOf.
  rewrite list_elem_of_filter, elem_of_allIndices, elem_of_seenSet, elem_of_correctSet.
  tauto.
Qed.

Lemma elem_of_seenCorrectOf bank us i :
  i ∈ seenCorrectOf bank us ↔ i < length bank ∧ i ∈ correctQuestions us.
Proof.
  unfold seenCorrectOf.
  rewrite list_elem_of_filter, elem_of_allIndices, elem_of_correctSet. tauto.
Qed.

(** What [selectSessionQuestions] returns, up to the order the shuffles
    choose. *)
Lemma selectSessionQuestions_spec bank us r :
  ∃ u i c,
    u ≡ₚ unseenOf bank us ∧ i ≡ₚ seenIncorrectOf bank us
    ∧ c ≡ₚ seenCorrectOf bank us
    ∧ (selectSessionQuestions bank us r).1 ≡ₚ take QUESTIONS_PER_GAME (u ++ i ++ c).
Proof.
  unfold selectSessionQuestions.
  destruct (shuffle (unseenOf bank us) r) as [u r1] eqn:Hu.
  destruct (shuffle (seenIncorrectOf bank us) r1) as [i r2] eqn:Hi.
  destruct (shuffle (seenCorrectOf bank us) r2) as [c r3] eqn:Hc.
  exists u, i, c. repeat split.
  - pose proof (shuffle_Permutation (unseenOf bank us) r) as H. by rewrite Hu in H.
  - pose proof (shuffle_Permutation (seenIncorrectOf bank us) r1) as H.
    by rewrite Hi in H.
  - pose proof (shuffle_Permutation (seenCorrectOf bank us) r2) as H.
    by rewrite Hc in H.
  - rewrite shuffle_Permutation. by rewrite pushUntilFull_three.
Qed.

(** Three predicates of which every element satisfies exactly one split a
    list into three parts. *)
Lemma filter3_Permutation {A} (P1 P2 P3 : A → Prop)
    `{!∀ x, Decision (P1 x), !∀ x, Decision (P2 x), !∀ x, Decision (P3 x)}
    (l : list A) :
  (∀ x, x ∈ l →
     (P1 x ∧ ¬ P2 x ∧ ¬ P3 x) ∨ (¬ P1 x ∧ P2 x ∧ ¬ P3 x) ∨ (¬ P1 x ∧ ¬ P2 x ∧ P3 x)) →
  filter P1 l ++ filter P2 l ++ filter P3 l ≡ₚ l.
Proof.
  induction l as [|x l IH]; intros Hone; [done|].
  assert (filter P1 l ++ filter P2 l ++ filter P3 l ≡ₚ l) as IH'.
  { apply IH. intros y Hy. apply Hone. by right. }
  specialize (Hone x (list_elem_of_here x l)).
  rewrite !filter_cons.
  destruct (decide (P1 x)), (decide (P2 x)), (decide (P3 x)); try tauto; simpl.
  - by f_equiv.
  - rewrite <- Permutation_middle. by f_equiv.
  - rewrite (app_assoc (filter P1 l)), <- Permutation_middle, <- app_assoc.
    by f_equiv.
Qed.

(** With [correctQuestions ⊆ seenQuestions] the three categories partition
    the indices of the bank. *)
Lemma categories_partition bank us :
  correctWithinSeen us →
  unseenOf bank us ++ seenIncorrectOf bank us ++ seenCorrectOf bank us
  ≡ₚ seq 0 (length bank).
Proof.
  intros Hsub. unfold unseenOf, seenIncorrectOf, seenCorrectOf.
  rewrite <- allIndices_seq. apply filter3_Permutation.
  intros i _. rewrite !elem_of_seenSet, !elem_of_correctSet.
  specialize (Hsub i).
  destruct (decide (i ∈ seenQuestions us)), (decide (i ∈ correctQuestions us)); tauto.
Qed.

(** Without that inclusion the categories still cover the bank. *)
Lemma categories_cover bank us i :
  i < length bank →
  i ∈ unseenOf bank us ∨ i ∈ seenIncorrectOf bank us ∨ i ∈ seenCorrectOf bank us.
Proof.
  intros Hi.
  rewrite elem_of_unseenOf, elem_of_seenIncorrectOf, elem_of_seenCorrectOf.
  destruct (decide (i ∈ seenQuestions us)), (decide (i ∈ correctQuestions us)); tauto.
Qed.

Lemma selectSessionQuestions_valid bank us r i :
  i ∈ (selectSessionQuestions bank us r).1 → i < length bank.
Proof.
  destruct (selectSessionQuestions_spec bank us r) as (u & s & c & Hu & Hs & Hc & Hsel).
  rewrite Hsel. intros Hi%(subseteq_take _ _ _). revert Hi.
  rewrite !elem_of_app, Hu, Hs, Hc.
  rewrite elem_of_unseenOf, elem_of_seenIncorrectOf, elem_of_seenCorrectOf. tauto.
Qed.

Lemma selectSessionQuestions_length_le bank us r :
  length (selectSessionQuestions bank us r).1 ≤ QUESTIONS_PER_GAME.
Proof.
  destruct (selectSessionQuestions_spec bank us r) as (u & s & c & _ & _ & _ & Hsel).
  rewrite Hsel, length_take. lia.
Qed.

Lemma selectSessionQuestions_nonempty bank us r :
  bank ≠ [] → (selectSessionQuestions bank us r).1 ≠ [].
Proof.
  intros Hbank Hnil.
  destruct (selectSessionQuestions_spec bank us r) as (u & s & c & Hu & Hs & Hc & Hsel).
  rewrite Hnil in Hsel. apply Permutation_length in Hsel.
  rewrite length_take, !length_app, Hu, Hs, Hc in Hsel. cbn [length] in Hsel.
  assert (0 < length bank) as Hpos by (destruct bank; [done|simpl; lia]).
  assert (length (unseenOf bank us) = 0 ∧ length (seenIncorrectOf bank us) = 0
          ∧ length (seenCorrectOf bank us) = 0) as (H1 & H2 & H3)
    by (unfold QUESTIONS_PER_GAME in Hsel; lia).
  apply nil_length_inv in H1, H2, H3.
  destruct (categories_cover bank us 0 Hpos) as [H|[H|H]];
    rewrite ?H1, ?H2, ?H3 in H; by apply elem_of_nil in H.
Qed.

(** C1 (amended): for every question bank and every progress record in
    which every correctly answered index is also a seen index,
    [selectSessionQuestions] returns exactly [min(QUESTIONS_PER_GAME, N)]
    indices, without duplicates, each a valid index into the bank. *)
Theorem selectSessionQuestions_coverage bank us r :
  correctWithinSeen us →
  let selected := (selectSessionQuestions bank us r).1 in
  length selected = Nat.min QUESTIONS_PER_GAME (length bank)
  ∧ NoDup selected
  ∧ ∀ i, i ∈ selected → i < length bank.
Proof.
  intros Hsub selected.
  destruct (selectSessionQuestions_spec bank us r) as (u & s & c & Hu & Hs & Hc & Hsel).
  assert (u ++ s ++ c ≡ₚ seq 0 (length bank)) as Hall.
  { rewrite Hu, Hs, Hc. by apply categories_partition. }
  split; [|split].
  - unfold selected. rewrite Hsel, length_take, Hall, length_seq. done.
  - unfold selected. rewrite Hsel.
    eapply sublist_NoDup; [|apply sublist_take]. rewrite Hall. apply NoDup_seq.
  - intros i. apply selectSessionQuestions_valid.
Qed.

Lemma selectSessionQuestions_coverage_witness :
  let selected := (selectSessionQuestions sampleQuestions masteredTwo sampleEntropy).1 in
  length selected = 3 ∧ NoDup selected ∧ ∀ i, i ∈ selected → i < 3.
Proof.
  apply (selectSessionQuestions_coverage sampleQuestions masteredTwo sampleEntropy).
  intros i Hi. exact Hi.
Defined.

(** C1 as stated, for any pair of sets, fails: with question 0 recorded as
    correct but not as seen, the three-question bank yields four indices,
    0 twice. *)
Lemma selectSessionQuestions_coverage_any_sets_fails :
  let selected :=
    (selectSessionQuestions sampleQuestions correctButUnseen sampleEntropy).1 in
  selected = [1; 0; 2; 0]
  ∧ length selected ≠ Nat.min QUESTIONS_PER_GAME (length sampleQuestions)
  ∧ ¬ NoDup selected.
Proof.
  assert ((selectSessionQuestions sampleQuestions correctButUnseen sampleEntropy).1
          = [1; 0; 2; 0]) as Heq by (vm_compute; reflexivity).
  intros selected. unfold selected. rewrite Heq. split; [done|]. split.
  - vm_compute. lia.
  - intros Hnd. apply NoDup_cons in Hnd as [_ Hnd].
    apply NoDup_cons in Hnd as [Hnotin _]. apply Hnotin. set_solver.
Qed.

(** ** Priority *)

Lemma elem_of_take_app_r {A} (x : A) n (l k : list A) :
  x ∈ take n (l ++ k) → x ∉ l → length l < n ∧ x ∈ k.
Proof.
  rewrite take_app, elem_of_app. intros [Hl|Hk] Hnot.
  - by apply subseteq_take in Hl.
  - split; [|by apply subseteq_take in Hk].
    destruct (decide (length l < n)) as [|Hge]; [done|].
    replace (n - length l) with 0 in Hk by lia. by apply elem_of_nil in Hk.
Qed.

(** C2: if at least [QUESTIONS_PER_GAME] indices are unseen, every selected
    index is unseen; if fewer are, every unseen index is selected, and a
    seen-and-correct index is selected only if every seen-but-incorrect
    index is selected too; at most [QUESTIONS_PER_GAME] indices are
    selected.  The statement is about which indices are chosen, not about
    their order. *)
Theorem selectSessionQuestions_priority bank us r :
  let selected := (selectSessionQuestions bank us r).1 in
  (QUESTIONS_PER_GAME ≤ length (unseenOf bank us) →
     ∀ i, i ∈ selected → i < length bank ∧ i ∉ seenQuestions us)
  ∧ (length (unseenOf bank us) < QUESTIONS_PER_GAME →
       (∀ i, i < length bank → i ∉ seenQuestions us → i ∈ selected)
       ∧ (∀ c, c ∈ selected → c ∈ seenQuestions us → c ∈ correctQuestions us →
            ∀ m, m < length bank → m ∈ seenQuestions us →
                 m ∉ correctQuestions us → m ∈ selected))
  ∧ length selected ≤ QUESTIONS_PER_GAME.
Proof.
  intros selected. unfold selected.
  destruct (selectSessionQuestions_spec bank us r) as (u & s & c & Hu & Hs & Hc & Hsel).
  split; [|split].
  - intros Hmany i. rewrite Hsel, take_app_le by (by rewrite Hu).
    intros Hi%(subseteq_take _ _ _). rewrite Hu in Hi. by apply elem_of_unseenOf.
  - intros Hfew. rewrite <- Hu in Hfew. split.
    + intros i Hi Hunseen. rewrite Hsel, take_app_ge by lia.
      apply elem_of_app. left. rewrite Hu. by apply elem_of_unseenOf.
    + intros q Hq Hseen Hcorrect m Hm Hmseen Hmwrong.
      rewrite Hsel, app_assoc in Hq. apply elem_of_take_app_r in Hq as [Hlen _].
      * rewrite Hsel, app_assoc, take_app_ge by lia.
        apply elem_of_app. left. apply elem_of_app. right.
        rewrite Hs. by apply elem_of_seenIncorrectOf.
      * rewrite elem_of_app, Hu, Hs, elem_of_unseenOf, elem_of_seenIncorrectOf. tauto.
  - apply selectSessionQuestions_length_le.
Qed.

Lemma selectSessionQuestions_priority_witness :
  (∀ i, i ∈ (selectSessionQuestions largeBank emptyStats sampleEntropy).1 →
        i < 27 ∧ i ∉ [])
  ∧ 0 ∈ (selectSessionQuestions sampleQuestions missedOne sampleEntropy).1
  ∧ 1 ∈ (selectSessionQuestions sampleQuestions missedOne sampleEntropy).1.
Proof.
  pose proof (selectSessionQuestions_priority largeBank emptyStats sampleEntropy)
    as (Hmany & _ & _).
  pose proof (selectSessionQuestions_priority sampleQuestions missedOne sampleEntropy)
    as (_ & Hfew & _).
  assert (QUESTIONS_PER_GAME ≤ length (unseenOf largeBank emptyStats)) as Hge
    by (vm_compute; lia).
  assert (length (unseenOf sampleQuestions missedOne) < QUESTIONS_PER_GAME) as Hlt
    by (vm_compute; lia).
  destruct (Hfew Hlt) as [Hall Hfill].
  assert (0 ∉ [2; 1]) as H0 by compute_decision.
  assert (2 ∈ [2; 1]) as H2 by compute_decision.
  assert (1 ∈ [2; 1]) as H1 by compute_decision.
  assert (2 ∈ [2]) as H2' by compute_decision.
  assert (1 ∉ [2]) as H1' by compute_decision.
  assert (0 < length sampleQuestions) as Hl0 by (vm_compute; lia).
  assert (1 < length sampleQuestions) as Hl1 by (vm_compute; lia).
  assert (2 ∈ (selectSessionQuestions sampleQuestions missedOne sampleEntropy).1)
    as Hsel2 by compute_decision.
  split; [exact (Hmany Hge)|]. split.
  - exact (Hall 0 Hl0 H0).
  - exact (Hfill 2 Hsel2 H2 H2' 1 Hl1 H1 H1').
Defined.

(** ** Running the engine's computations *)

Arguments selectSessionQuestions : simpl never.
Arguments shuffle : simpl never.

(** Unfolds the sequencing of a computation down to its final state. *)
Ltac run_M :=
  cbv [mbind M_bind mret M_ret modify get throw showScreen saveUserData
       updateNavButtons shuffleM selectSessionQuestionsM];
  cbn beta iota.

(** Splits on the tests a computation makes, outermost first. *)
Ltac split_tests :=
  repeat match goal with
         | |- context [bool_decide ?P] => destruct (bool_decide P) eqn:?; simpl
         | |- context [decide ?P] => destruct (decide P); simpl
         | |- context [match ?x with Some _ => _ | None => _ end] =>
             destruct x eqn:?; simpl
         | |- context [let '(_, _) := ?x in _] => destruct x eqn:?; simpl
         end.

Section RunnerFacts.
Context (theme : Theme).
Implicit Types (w : World) (d : nat).

(** *** The state [selectAnswer] leaves behind *)

Lemma selectAnswer_sessionScore d w :
  sessionScore (selectAnswer theme d w).2
  = if bool_decide (Z.of_nat d = currentCorrectShuffled w)
    then sessionScore w + 1 else sessionScore w.
Proof. unfold selectAnswer. run_M. split_tests; reflexivity. Qed.

Lemma selectAnswer_streak d w :
  streak (selectAnswer theme d w).2
  = if bool_decide (Z.of_nat d = currentCorrectShuffled w)
    then streak w + 1 else 0.
Proof. unfold selectAnswer. run_M. split_tests; reflexivity. Qed.

Lemma selectAnswer_userStats d w :
  userStats (selectAnswer theme d w).2
  = answeredStats (currentQuestionIndex w)
      (bool_decide (Z.of_nat d = currentCorrectShuffled w)) (userStats w).
Proof. unfold selectAnswer. run_M. split_tests; reflexivity. Qed.

Lemma selectAnswer_answerHistory d w :
  answerHistory (selectAnswer theme d w).2
  = arraySet (answerHistory w) (viewingIndex w)
      {| questionIndex := currentQuestionIndex w;
         selectedIndex := d;
         isCorrect := bool_decide (Z.of_nat d = currentCorrectShuffled w);
         shuffledOptions := currentShuffledOptions w;
         correctShuffled := currentCorrectShuffled w |}.
Proof. unfold selectAnswer. run_M. split_tests; reflexivity. Qed.

Lemma selectAnswer_sessionAnswered d w :
  sessionAnswered (selectAnswer theme d w).2 = sessionAnswered w + 1.
Proof. unfold selectAnswer. run_M. split_tests; reflexivity. Qed.

Lemma selectAnswer_localStorage d w :
  localStorage (selectAnswer theme d w).2
  = <[storageKey theme (currentUser w) := userStats (selectAnswer theme d w).2]>
      (localStorage w).
Proof. unfold selectAnswer. run_M. split_tests; reflexivity. Qed.

Lemma selectAnswer_frame d w :
  let w' := (selectAnswer theme d w).2 in
  questions w' = questions w ∧ sessionQuestions w' = sessionQuestions w
  ∧ activeScreen w' = activeScreen w ∧ optionHandlers w' = false
  ∧ viewingIndex w' = viewingIndex w
  ∧ browseReturnPosition w' = browseReturnPosition w
  ∧ currentQuestionIndex w' = currentQuestionIndex w
  ∧ currentShuffledOptions w' = currentShuffledOptions w
  ∧ currentCorrectShuffled w' = currentCorrectShuffled w.
Proof.
  unfold selectAnswer. run_M. split_tests; repeat split; simpl; congruence.
Qed.

End RunnerFacts.

(** ** Progress updates *)

Arguments pushSeen : simpl never.
Arguments pushCorrect : simpl never.
Arguments spliceCorrect : simpl never.

Lemma indexOf_elem q l :
  q ∈ l → ∃ k, indexOf q l = Z.of_nat k ∧ l !! k = Some q.
Proof.
  intros Hq. unfold indexOf.
  destruct (list_find (λ y, y = q) l) as [[k y]|] eqn:Hfind.
  - apply list_find_Some in Hfind as (Hk & -> & _). by exists k.
  - apply list_find_None in Hfind. rewrite Forall_forall in Hfind.
    by destruct (Hfind q Hq).
Qed.

Lemma indexOf_not_elem q l : q ∉ l → indexOf q l = (-1)%Z.
Proof.
  intros Hq. unfold indexOf.
  destruct (list_find (λ y, y = q) l) as [[k y]|] eqn:Hfind; [|done].
  apply list_find_Some in Hfind as (Hk & -> & _).
  destruct Hq. by eapply list_elem_of_lookup_2.
Qed.

Lemma indexOf_lookup x l k :
  indexOf x l = Z.of_nat k → l !! k = Some x.
Proof.
  unfold indexOf.
  destruct (list_find (λ y, y = x) l) as [[k' y]|] eqn:Hfind; [|lia].
  apply list_find_Some in Hfind as (Hk & -> & _).
  intros ?%(inj Z.of_nat). by subst.
Qed.

Lemma pushSeen_elem q us : q ∈ seenQuestions (pushSeen (Some q) us).
Proof.
  unfold pushSeen, includes. case_bool_decide; simpl; [done|].
  apply elem_of_app. right. by apply list_elem_of_singleton.
Qed.

Lemma pushSeen_mono q us i :
  i ∈ seenQuestions us → i ∈ seenQuestions (pushSeen q us).
Proof.
  destruct q as [q|]; [|done]. unfold pushSeen, includes.
  case_bool_decide; simpl; [done|]. intros. apply elem_of_app. by left.
Qed.

Lemma pushSeen_correctQuestions q us :
  correctQuestions (pushSeen q us) = correctQuestions us.
Proof. destruct q; [|done]. unfold pushSeen. by case_match. Qed.

Lemma pushCorrect_elem_inv q us i :
  i ∈ correctQuestions (pushCorrect q us) →
  i ∈ correctQuestions us ∨ q = Some i.
Proof.
  destruct q as [q|]; [|by left]. unfold pushCorrect, includes.
  case_bool_decide; simpl; [by left|].
  intros [?|Hi%list_elem_of_singleton]%elem_of_app; [by left|right; by subst].
Qed.

Lemma pushCorrect_seenQuestions q us :
  seenQuestions (pushCorrect q us) = seenQuestions us.
Proof. destruct q; [|done]. unfold pushCorrect. by case_match. Qed.

Lemma spliceCorrect_elem_inv q us i :
  i ∈ correctQuestions (spliceCorrect q us) → i ∈ correctQuestions us.
Proof.
  destruct q as [q|]; [|done]. unfold spliceCorrect.
  case_decide; simpl; [|done]. apply list_elem_of_delete_inv.
Qed.

Lemma spliceCorrect_seenQuestions q us :
  seenQuestions (spliceCorrect q us) = seenQuestions us.
Proof. destruct q; [|done]. unfold spliceCorrect. by case_decide. Qed.

(** In an array without duplicates [splice] removes the index altogether. *)
Lemma spliceCorrect_removes q us :
  NoDup (correctQuestions us) → q ∉ correctQuestions (spliceCorrect (Some q) us).
Proof.
  intros Hnd. unfold spliceCorrect.
  destruct (decide (q ∈ correctQuestions us)) as [Hin|Hout].
  - destruct (indexOf_elem _ _ Hin) as (k & -> & Hk).
    rewrite decide_True by lia. simpl. rewrite Nat2Z.id.
    rewrite (delete_Permutation _ _ _ Hk) in Hnd. by apply NoDup_cons in Hnd as [? _].
  - rewrite indexOf_not_elem by done. by rewrite decide_False by lia.
Qed.

(** The engine never introduces a duplicate in either array. *)
Lemma answeredStats_NoDup q b us :
  NoDup (seenQuestions us) → NoDup (correctQuestions us) →
  NoDup (seenQuestions (answeredStats q b us))
  ∧ NoDup (correctQuestions (answeredStats q b us)).
Proof.
  intros Hseen Hcorrect. unfold answeredStats. simpl.
  assert (∀ us', NoDup (seenQuestions us') → NoDup (seenQuestions (pushSeen q us')))
    as Hpush.
  { intros us' Hnd. destruct q as [q|]; [|done]. unfold pushSeen, includes.
    case_bool_decide; simpl; [done|]. apply NoDup_app. split; [done|]. split.
    - intros x Hx Hq%list_elem_of_singleton. by subst.
    - apply NoDup_singleton. }
  destruct b; simpl; split.
  - apply Hpush. simpl. by rewrite pushCorrect_seenQuestions.
  - rewrite pushSeen_correctQuestions. simpl.
    destruct q as [q|]; [|done]. unfold pushCorrect, includes.
    case_bool_decide; simpl; [done|]. apply NoDup_app. split; [done|]. split.
    + intros x Hx Hq%list_elem_of_singleton. by subst.
    + apply NoDup_singleton.
  - apply Hpush. by rewrite spliceCorrect_seenQuestions.
  - rewrite pushSeen_correctQuestions.
    destruct q as [q|]; [|done]. unfold spliceCorrect. case_decide; simpl; [|done].
    eapply sublist_NoDup; [done|apply sublist_delete].
Qed.

Lemma answeredStats_invariant q b us :
  correctWithinSeen us → correctWithinSeen (answeredStats q b us).
Proof.
  intros Hinv i. unfold answeredStats. simpl.
  rewrite pushSeen_correctQuestions. destruct b; simpl.
  - intros [Hi|Hq]%pushCorrect_elem_inv; [|subst q].
    + apply pushSeen_mono. simpl. rewrite pushCorrect_seenQuestions. by apply Hinv.
    + apply pushSeen_elem.
  - intros Hi%spliceCorrect_elem_inv.
    apply pushSeen_mono. rewrite spliceCorrect_seenQuestions. by apply Hinv.
Qed.

Lemma answeredStats_totals q b us :
  totalAnswered (answeredStats q b us) = totalAnswered us + 1
  ∧ totalCorrect (answeredStats q b us)
    = if b then totalCorrect us + 1 else totalCorrect us.
Proof.
  unfold answeredStats, pushSeen, pushCorrect, spliceCorrect.
  destruct q, b; simpl; repeat case_match; simpl; done.
Qed.

(** C6: in every state, a correct answer adds exactly 1 to [streak] and to
    [sessionScore]; an incorrect answer sets [streak] to 0 and leaves
    [sessionScore] as it is. *)
Theorem selectAnswer_streak_and_score theme w d :
  let w' := (selectAnswer theme d w).2 in
  (Z.of_nat d = currentCorrectShuffled w →
     streak w' = streak w + 1 ∧ sessionScore w' = sessionScore w + 1)
  ∧ (Z.of_nat d ≠ currentCorrectShuffled w →
     streak w' = 0 ∧ sessionScore w' = sessionScore w).
Proof.
  intros w'. unfold w'. rewrite selectAnswer_streak, selectAnswer_sessionScore.
  split; intros Hd.
  - by rewrite bool_decide_eq_true_2.
  - by rewrite bool_decide_eq_false_2.
Qed.

Lemma selectAnswer_streak_and_score_witness :
  (streak (selectAnswer defaultTheme 1 firstQuestionPage).2 = 1
   ∧ sessionScore (selectAnswer defaultTheme 1 firstQuestionPage).2 = 1)
  ∧ (streak (selectAnswer defaultTheme 0 firstQuestionPage).2 = 0
     ∧ sessionScore (selectAnswer defaultTheme 0 firstQuestionPage).2 = 0).
Proof.
  split.
  - apply (selectAnswer_streak_and_score defaultTheme firstQuestionPage 1).
    vm_compute. reflexivity.
  - apply (selectAnswer_streak_and_score defaultTheme firstQuestionPage 0).
    vm_compute. discriminate.
Defined.

(** C5: when the current question [q] is recorded as seen and as correct, an
    incorrect answer removes [q] from [correctQuestions], keeps it in
    [seenQuestions], adds 1 to [totalAnswered] and leaves [totalCorrect];
    and no answer, correct or not, decreases either counter.  The arrays
    stand for sets: [correctQuestions] holds no index twice. *)
Theorem incorrect_answer_most_recent_outcome theme w d :
  let us := userStats w in
  let us' := userStats (selectAnswer theme d w).2 in
  (∀ q, currentQuestionIndex w = Some q →
        q ∈ seenQuestions us → q ∈ correctQuestions us →
        NoDup (correctQuestions us) →
        Z.of_nat d ≠ currentCorrectShuffled w →
        (q ∉ correctQuestions us') ∧ q ∈ seenQuestions us'
        ∧ totalAnswered us' = totalAnswered us + 1
        ∧ totalCorrect us' = totalCorrect us)
  ∧ totalAnswered us ≤ totalAnswered us'
  ∧ totalCorrect us ≤ totalCorrect us'.
Proof.
  intros us us'. unfold us'. rewrite selectAnswer_userStats. fold us.
  split.
  - intros q -> Hseen Hcorrect Hnd Hwrong.
    rewrite bool_decide_eq_false_2 by done.
    destruct (answeredStats_totals (Some q) false us) as [-> ->].
    repeat split.
    + unfold answeredStats. simpl. rewrite pushSeen_correctQuestions.
      by apply spliceCorrect_removes.
    + unfold answeredStats. simpl. apply pushSeen_elem.
  - destruct (answeredStats_totals (currentQuestionIndex w)
                (bool_decide (Z.of_nat d = currentCorrectShuffled w)) us) as [-> ->].
    case_bool_decide; lia.
Qed.

Lemma incorrect_answer_most_recent_outcome_witness :
  let us' := userStats (selectAnswer defaultTheme 0 returningPage).2 in
  (2 ∉ correctQuestions us') ∧ 2 ∈ seenQuestions us'
  ∧ totalAnswered us' = 4 ∧ totalCorrect us' = 3.
Proof.
  destruct (incorrect_answer_most_recent_outcome defaultTheme returningPage 0)
    as [Hwrong _].
  apply (Hwrong 2).
  - vm_compute. reflexivity.
  - compute_decision.
  - compute_decision.
  - compute_decision.
  - vm_compute. discriminate.
Defined.

(** ** What loading and reviewing a question leave alone *)

Lemma sameSession_refl w : sameSession w w.
Proof. by repeat split. Qed.

Lemma sameSession_trans w1 w2 w3 :
  sameSession w1 w2 → sameSession w2 w3 → sameSession w1 w3.
Proof. unfold sameSession. intuition congruence. Qed.

Section NavigationFacts.
Context (theme : Theme).
Implicit Types (w : World).

Lemma showCompletionScreen_sameSession w :
  sameSession w (showCompletionScreen theme w).2.
Proof. unfold showCompletionScreen. run_M. by repeat split. Qed.

Lemma loadNextQuestion_sameSession w :
  sameSession w (loadNextQuestion theme w).2.
Proof.
  unfold loadNextQuestion, showCompletionScreen. run_M.
  split_tests; by repeat split.
Qed.

Lemma showReviewQuestion_sameSession position w :
  sameSession w (showReviewQuestion position w).2.
Proof.
  unfold showReviewQuestion. run_M. split_tests; by repeat split.
Qed.

Lemma goBack_sameSession w : sameSession w (goBack w).2.
Proof.
  unfold goBack. run_M. destruct (decide (viewingIndex w ≤ 0)); simpl.
  { apply sameSession_refl. }
  destruct (browseReturnPosition w); simpl;
    (eapply sameSession_trans; [|apply showReviewQuestion_sameSession]);
    by repeat split.
Qed.

Lemma goForward_sameSession w : sameSession w (goForward theme w).2.
Proof.
  unfold goForward. run_M.
  destruct (browseReturnPosition w) as [returnPos|]; simpl.
  2: { apply sameSession_refl. }
  destruct (decide (returnPos ≤ viewingIndex w + 1)); simpl.
  2: { eapply sameSession_trans; [|apply showReviewQuestion_sameSession].
       by repeat split. }
  destruct (decide (sessionAnswered w ≤ returnPos)); simpl.
  { eapply sameSession_trans; [|apply loadNextQuestion_sameSession].
    by repeat split. }
  match goal with
  | |- context [showReviewQuestion ?p ?w0] =>
      pose proof (showReviewQuestion_sameSession p w0) as Hreview;
      destruct (showReviewQuestion p w0) as [[[]|e] w1]
  end; simpl in *.
  - eapply sameSession_trans; [|eapply sameSession_trans; [exact Hreview|]].
    + by repeat split.
    + destruct (browseReturnPosition _); by repeat split.
  - eapply sameSession_trans; [|exact Hreview]. by repeat split.
Qed.
End NavigationFacts.

(** C7: whatever sequence of Back and Forward requests is made, in any
    state, the session score, the streak, the number of answers, the answer
    history and the progress record stay as they were, as do the selected
    questions and the stored progress; of the session state of the
    specification only [viewingIndex] and [browseReturnPosition] can
    change. *)
Theorem browsing_changes_no_score_or_progress theme ns w :
  let w' := browse theme ns w in
  sessionScore w' = sessionScore w
  ∧ streak w' = streak w
  ∧ sessionAnswered w' = sessionAnswered w
  ∧ answerHistory w' = answerHistory w
  ∧ userStats w' = userStats w
  ∧ sessionQuestions w' = sessionQuestions w
  ∧ localStorage w' = localStorage w.
Proof.
  assert (sameSession w (browse theme ns w)) as Hsame.
  { revert w. induction ns as [|n ns IH]; intros w; simpl.
    - apply sameSession_refl.
    - eapply sameSession_trans; [|apply IH].
      destruct n; [apply goBack_sameSession|apply goForward_sameSession]. }
  unfold sameSession in Hsame. simpl. intuition congruence.
Qed.

(** The variables that hold the question on display are not among those
    fields: leaving browse mode at a question that is not answered yet
    loads it afresh, with a new display shuffle. *)
Lemma browsing_redraws_live_question :
  let w' := browse defaultTheme [Back; Forward] secondQuestionPage in
  viewingIndex w' = viewingIndex secondQuestionPage
  ∧ browseReturnPosition w' = browseReturnPosition secondQuestionPage
  ∧ currentShuffledOptions secondQuestionPage = [2; 3; 0; 1]
  ∧ currentShuffledOptions w' = [1; 2; 3; 0].
Proof. vm_compute. by repeat split. Qed.

(** C9: Back at position 0 and Forward outside browse mode return normally
    and leave the whole state as it was. *)
Theorem invalid_navigation_is_noop theme w :
  (viewingIndex w = 0 → goBack w = (Ret (), w))
  ∧ (browseReturnPosition w = None → goForward theme w = (Ret (), w)).
Proof.
  split; intros Hguard.
  - unfold goBack. run_M. by rewrite decide_True by lia.
  - unfold goForward. run_M. by rewrite Hguard.
Qed.

Lemma invalid_navigation_is_noop_witness :
  goBack samplePage = (Ret (), samplePage)
  ∧ goForward defaultTheme samplePage = (Ret (), samplePage).
Proof.
  destruct (invalid_navigation_is_noop defaultTheme samplePage) as [Hback Hforward].
  split; [apply Hback|apply Hforward]; reflexivity.
Defined.

(** ** The invariant [correctQuestions ⊆ seenQuestions] *)

Lemma resetProgress_userStats theme w :
  userStats (resetProgress theme true w).2 = emptyStats.
Proof.
  unfold resetProgress. run_M.
  destruct (selectSessionQuestions _ _ _) as [selected r]. simpl.
  match goal with
  | |- context [loadNextQuestion theme ?w0] =>
      destruct (loadNextQuestion_sameSession theme w0)
        as (_ & _ & _ & _ & _ & _ & -> & _)
  end.
  reflexivity.
Qed.

(** C8: the fresh record that [getUserData] creates satisfies
    [correctQuestions ⊆ seenQuestions], and submitting an answer and
    resetting the progress preserve it, in memory and in the copy that
    [selectAnswer] stores. *)
Theorem correct_within_seen_invariant theme :
  correctWithinSeen emptyStats
  ∧ (∀ username w,
       localStorage w !! storageKey theme (Some username) = None →
       getUserData theme username w = emptyStats)
  ∧ (∀ d w,
       correctWithinSeen (userStats w) →
       let w' := (selectAnswer theme d w).2 in
       correctWithinSeen (userStats w')
       ∧ localStorage w' !! storageKey theme (currentUser w') = Some (userStats w'))
  ∧ (∀ confirmed w,
       correctWithinSeen (userStats w) →
       correctWithinSeen (userStats (resetProgress theme confirmed w).2)).
Proof.
  assert (correctWithinSeen emptyStats) as Hempty.
  { intros i Hi. simpl in Hi. by apply elem_of_nil in Hi. }
  split; [done|]. split; [|split].
  - intros username w Hnone. unfold getUserData. by rewrite Hnone.
  - intros d w Hinv. simpl. split.
    + rewrite selectAnswer_userStats. by apply answeredStats_invariant.
    + rewrite selectAnswer_localStorage.
      assert (currentUser (selectAnswer theme d w).2 = currentUser w) as ->.
      { unfold selectAnswer. run_M. split_tests; reflexivity. }
      apply lookup_insert_eq.
  - intros [] w Hinv.
    + by rewrite resetProgress_userStats.
    + done.
Qed.

Lemma correct_within_seen_invariant_witness :
  getUserData defaultTheme "ann" samplePage = emptyStats
  ∧ correctWithinSeen (userStats (selectAnswer defaultTheme 0 samplePage).2)
  ∧ correctWithinSeen (userStats (resetProgress defaultTheme false samplePage).2).
Proof.
  destruct (correct_within_seen_invariant defaultTheme)
    as (Hempty & Hfresh & Hanswer & Hreset).
  split; [|split].
  - apply Hfresh. reflexivity.
  - apply (Hanswer 0 samplePage). exact Hempty.
  - apply (Hreset false samplePage). exact Hempty.
Defined.

(** ** The display shuffle *)

Lemma arrayGet_arraySet {A} (array : list (option A)) i (x : A) :
  arrayGet (arraySet array i x) i = Some x.
Proof.
  unfold arrayGet, arraySet. case_decide as Hi.
  - by rewrite list_lookup_insert_eq.
  - rewrite lookup_app_r by lia. rewrite lookup_app_r; rewrite length_replicate; [|lia].
    by replace (i - length array - (i - length array)) with 0 by lia.
Qed.

(** What a successful [loadNextQuestion] puts on display. *)
Lemma loadNextQuestion_loaded theme w idx q :
  sessionAnswered w < QUESTIONS_PER_GAME →
  sessionQuestions w !! sessionAnswered w = Some idx →
  questions w !! idx = Some q →
  let w' := (loadNextQuestion theme w).2 in
  (loadNextQuestion theme w).1 = Ret ()
  ∧ currentQuestionIndex w' = Some idx
  ∧ currentShuffledOptions w' = (shuffle [0; 1; 2; 3] (entropy w)).1
  ∧ currentCorrectShuffled w' = indexOf (correct q) (currentShuffledOptions w')
  ∧ viewingIndex w' = sessionAnswered w
  ∧ optionHandlers w' = true
  ∧ activeScreen w' = activeScreen w.
Proof.
  intros Hlive Hidx Hq. unfold loadNextQuestion. run_M.
  rewrite decide_False by lia. simpl. rewrite Hidx. simpl. rewrite Hq.
  destruct (shuffle [0; 1; 2; 3] (entropy w)) as [shuffled r] eqn:Hshuffle. simpl.
  destruct (browseReturnPosition w); simpl; by repeat split.
Qed.

(** C10: once a question whose [correct] field is in [0,3] is loaded, the
    remapped index points at the original correct option in the display
    permutation; so an answer at display position [d] is judged correct
    exactly when the option shown there is the original correct one, and the
    history entry written by the answer holds this permutation and this
    remapped index. *)
Theorem display_shuffle_tracks_correct_option theme w idx q :
  sessionAnswered w < QUESTIONS_PER_GAME →
  sessionQuestions w !! sessionAnswered w = Some idx →
  questions w !! idx = Some q →
  correct q < 4 →
  let w' := (loadNextQuestion theme w).2 in
  (∃ k, currentCorrectShuffled w' = Z.of_nat k
        ∧ currentShuffledOptions w' !! k = Some (correct q))
  ∧ ∀ d, let w'' := (selectAnswer theme d w').2 in
      ∃ entry, arrayGet (answerHistory w'') (viewingIndex w') = Some entry
        ∧ questionIndex entry = Some idx
        ∧ selectedIndex entry = d
        ∧ (isCorrect entry = true
           ↔ currentShuffledOptions w' !! d = Some (correct q))
        ∧ (sessionScore w'' = sessionScore w' + 1
           ↔ currentShuffledOptions w' !! d = Some (correct q))
        ∧ shuffledOptions entry = currentShuffledOptions w'
        ∧ correctShuffled entry = currentCorrectShuffled w'.
Proof.
  intros Hlive Hidx Hq Hrange w'.
  destruct (loadNextQuestion_loaded theme w idx q Hlive Hidx Hq)
    as (_ & Hcur & Hshuffled & Hcorrect & _).
  fold w' in Hcur, Hshuffled, Hcorrect.
  assert (currentShuffledOptions w' ≡ₚ [0; 1; 2; 3]) as Hperm.
  { rewrite Hshuffled. apply shuffle_Permutation. }
  assert (NoDup (currentShuffledOptions w')) as Hnodup.
  { rewrite Hperm. apply (NoDup_seq 0 4). }
  assert (correct q ∈ currentShuffledOptions w') as Hin.
  { rewrite Hperm. apply (elem_of_seq 0 4). lia. }
  destruct (indexOf_elem _ _ Hin) as (k & Hk & Hlookup).
  rewrite <- Hcorrect in Hk.
  assert (∀ d, Z.of_nat d = currentCorrectShuffled w'
               ↔ currentShuffledOptions w' !! d = Some (correct q)) as Hjudge.
  { intros d. rewrite Hk. split.
    - intros ->%(inj Z.of_nat). done.
    - intros Hd. f_equal. by eapply NoDup_lookup. }
  split; [by exists k|].
  intros d w''. unfold w''.
  rewrite selectAnswer_answerHistory, selectAnswer_sessionScore.
  eexists. split; [apply arrayGet_arraySet|]. simpl.
  repeat split; try done.
  - intros Hd%bool_decide_eq_true_1. by apply Hjudge.
  - intros Hd. apply bool_decide_eq_true_2. by apply Hjudge.
  - case_bool_decide; [intros _; by apply Hjudge|lia].
  - intros Hd%Hjudge. by rewrite bool_decide_eq_true_2.
Qed.

Lemma display_shuffle_tracks_correct_option_witness :
  let w' := (loadNextQuestion defaultTheme firstQuestionPage).2 in
  (∃ k, currentCorrectShuffled w' = Z.of_nat k
        ∧ currentShuffledOptions w' !! k = Some 3)
  ∧ ∀ d, let w'' := (selectAnswer defaultTheme d w').2 in
      ∃ entry, arrayGet (answerHistory w'') (viewingIndex w') = Some entry
        ∧ questionIndex entry = Some 2
        ∧ selectedIndex entry = d
        ∧ (isCorrect entry = true ↔ currentShuffledOptions w' !! d = Some 3)
        ∧ (sessionScore w'' = sessionScore w' + 1
           ↔ currentShuffledOptions w' !! d = Some 3)
        ∧ shuffledOptions entry = currentShuffledOptions w'
        ∧ correctShuffled entry = currentCorrectShuffled w'.
Proof.
  apply (display_shuffle_tracks_correct_option defaultTheme firstQuestionPage 2
           (mkQuestion "Sample question 3 - Replace with your content"
              ["Answer A"; "Answer B"; "Answer C"; "Answer D"] 3
              "Fun facts help reinforce learning and keep users engaged with your content."
              "https://en.wikipedia.org/wiki/Example")).
  - vm_compute. lia.
  - vm_compute. reflexivity.
  - vm_compute. reflexivity.
  - simpl. lia.
Defined.

(** ** The runner's invariant holds in every reachable state *)

Section InvariantFacts.
Context (theme : Theme).
Implicit Types (w : World).

Lemma sessionInvariant_loadReady w : sessionInvariant w → loadReady w.
Proof. by intros [? _]. Qed.

Lemma showCompletionScreen_invariant w :
  loadReady w → sessionInvariant (showCompletionScreen theme w).2.
Proof.
  intros (H1 & H2 & H3 & H4 & H5).
  unfold showCompletionScreen. run_M. simpl.
  repeat split; simpl; try done.
Qed.

Lemma loadNextQuestion_invariant w :
  loadReady w → sessionInvariant (loadNextQuestion theme w).2.
Proof.
  intros Hready. pose proof Hready as (H1 & H2 & H3 & H4 & H5).
  destruct (decide (QUESTIONS_PER_GAME ≤ sessionAnswered w)) as [Hdone|Hlive].
  { unfold loadNextQuestion. run_M. rewrite decide_True by done.
    by apply showCompletionScreen_invariant. }
  destruct (sessionQuestions w !! sessionAnswered w) as [idx|] eqn:Hidx.
  - assert (idx < length (questions w)) as Hvalid
      by (eapply H3, list_elem_of_lookup_2, Hidx).
    destruct (lookup_lt_is_Some_2 _ _ Hvalid) as [q Hq].
    destruct (loadNextQuestion_loaded theme w idx q ltac:(lia) Hidx Hq)
      as (_ & Hcur & _ & _ & _ & Hhandlers & Hscreen).
    destruct (loadNextQuestion_sameSession theme w)
      as (Hqs & _ & _ & _ & Hsq & Hsa & _).
    apply lookup_lt_Some in Hidx.
    repeat split; rewrite ?Hqs, ?Hsq, ?Hsa; try done.
    + intros _. intros Hnil. rewrite Hnil in Hvalid. simpl in Hvalid. lia.
    + intros _ _. by exists idx.
  - unfold loadNextQuestion. run_M. rewrite decide_False by done. simpl.
    rewrite Hidx. simpl.
    destruct (shuffle [0; 1; 2; 3] (entropy w)) as [shuffled r]. simpl.
    apply lookup_ge_None in Hidx.
    repeat split; simpl; try done.
    all: intros Hgame Hhandlers; specialize (H5 Hgame Hhandlers); lia.
Qed.

Lemma showReviewQuestion_invariant position w :
  sessionInvariant w → sessionInvariant (showReviewQuestion position w).2.
Proof.
  intros Hinv. pose proof Hinv as ((H1 & H2 & H3 & H4 & H5) & H6).
  unfold showReviewQuestion. run_M. split_tests; try done.
  all: repeat split; simpl; done.
Qed.

Lemma loadReady_fields w w' :
  questions w' = questions w →
  sessionQuestions w' = sessionQuestions w →
  sessionAnswered w' = sessionAnswered w →
  optionHandlers w' = optionHandlers w →
  activeScreen w' = activeScreen w →
  loadReady w → loadReady w'.
Proof. unfold loadReady. intros -> -> -> -> ->. done. Qed.

Lemma sessionInvariant_fields w w' :
  questions w' = questions w →
  sessionQuestions w' = sessionQuestions w →
  sessionAnswered w' = sessionAnswered w →
  optionHandlers w' = optionHandlers w →
  activeScreen w' = activeScreen w →
  currentQuestionIndex w' = currentQuestionIndex w →
  sessionInvariant w → sessionInvariant w'.
Proof. unfold sessionInvariant, loadReady. intros -> -> -> -> -> ->. done. Qed.

Lemma selectAnswer_invariant d w :
  activeScreen w = gameScreen → optionHandlers w = true →
  sessionInvariant w → sessionInvariant (selectAnswer theme d w).2.
Proof.
  intros Hgame Hlive ((H1 & H2 & H3 & H4 & H5) & H6).
  destruct (selectAnswer_frame theme d w)
    as (Hqs & Hsq & Hscreen & Hhandlers & _).
  pose proof (selectAnswer_sessionAnswered theme d w) as Hsa.
  specialize (H5 Hgame Hlive).
  repeat split; rewrite ?Hqs, ?Hsq, ?Hsa, ?Hhandlers; try done; lia.
Qed.

Lemma nextQuestion_invariant w :
  sessionInvariant w → sessionInvariant (nextQuestion theme w).2.
Proof.
  intros [Hready _]. unfold nextQuestion. run_M.
  case_decide; [apply showCompletionScreen_invariant|apply loadNextQuestion_invariant];
    by eapply loadReady_fields; [..|exact Hready].
Qed.

Lemma goBack_invariant w : sessionInvariant w → sessionInvariant (goBack w).2.
Proof.
  intros Hinv. unfold goBack. run_M. case_decide; simpl; [done|].
  destruct (browseReturnPosition w); simpl;
    apply showReviewQuestion_invariant;
    by eapply sessionInvariant_fields; [..|exact Hinv].
Qed.

Lemma goForward_invariant w :
  sessionInvariant w → sessionInvariant (goForward theme w).2.
Proof.
  intros Hinv. unfold goForward. run_M.
  destruct (browseReturnPosition w) as [returnPos|]; simpl; [|done].
  destruct (decide (returnPos ≤ viewingIndex w + 1)); simpl.
  2: { apply showReviewQuestion_invariant.
       by eapply sessionInvariant_fields; [..|exact Hinv]. }
  destruct (decide (sessionAnswered w ≤ returnPos)); simpl.
  { apply loadNextQuestion_invariant, sessionInvariant_loadReady.
    by eapply sessionInvariant_fields; [..|exact Hinv]. }
  match goal with
  | |- context [showReviewQuestion ?p ?w0] =>
      assert (sessionInvariant (showReviewQuestion p w0).2) as Hreview
        by (apply showReviewQuestion_invariant;
            by eapply sessionInvariant_fields; [..|exact Hinv]);
      destruct (showReviewQuestion p w0) as [[[]|e] w1]
  end; simpl in *; [|done].
  destruct (browseReturnPosition _); simpl;
    by eapply sessionInvariant_fields; [..|exact Hreview].
Qed.

(** A fresh selection, shown on the game screen, is ready to be loaded. *)
Lemma newSession_invariant bank us r0 selected r w0 :
  selectSessionQuestions bank us r0 = (selected, r) →
  questions w0 = bank →
  sessionQuestions w0 = selected →
  sessionAnswered w0 = 0 →
  activeScreen w0 = gameScreen →
  (optionHandlers w0 = true → bank ≠ []) →
  sessionInvariant (loadNextQuestion theme w0).2.
Proof.
  intros Hsel Hqs Hsq Hsa Hscreen Hbank.
  assert (selected = (selectSessionQuestions bank us r0).1)
    as Hselected by (by rewrite Hsel).
  apply loadNextQuestion_invariant.
  unfold loadReady. rewrite Hqs, Hsq, Hsa, Hselected.
  split; [lia|]. split; [apply selectSessionQuestions_length_le|].
  split; [apply selectSessionQuestions_valid|]. split; [exact Hbank|].
  intros _ Hlive.
  pose proof (selectSessionQuestions_nonempty bank us r0 (Hbank Hlive)) as Hne.
  destruct (selectSessionQuestions bank us r0).1; [done|simpl; lia].
Qed.

Lemma playAgain_invariant w :
  sessionInvariant w → sessionInvariant (playAgain theme w).2.
Proof.
  intros ((H1 & H2 & H3 & H4 & H5) & H6). unfold playAgain. run_M.
  simpl. destruct (selectSessionQuestions _ _ _) as [selected r] eqn:Hsel.
  simpl. eapply newSession_invariant; [exact Hsel|done..].
Qed.

Lemma resetProgress_invariant confirmed w :
  sessionInvariant w → sessionInvariant (resetProgress theme confirmed w).2.
Proof.
  intros Hinv. pose proof Hinv as ((H1 & H2 & H3 & H4 & H5) & H6).
  destruct confirmed; [|exact Hinv]. unfold resetProgress. run_M.
  simpl. destruct (selectSessionQuestions _ _ _) as [selected r] eqn:Hsel.
  simpl. eapply newSession_invariant; [exact Hsel|done..].
Qed.

Lemma startGame_invariant username w :
  sessionInvariant w → sessionInvariant (startGame theme username w).2.
Proof.
  intros Hinv. pose proof Hinv as ((H1 & H2 & H3 & H4 & H5) & H6).
  unfold startGame. case_decide; [exact Hinv|]. run_M.
  simpl. destruct (selectSessionQuestions _ _ _) as [selected r] eqn:Hsel.
  simpl. eapply newSession_invariant; [exact Hsel|done..].
Qed.

Lemma logout_invariant w : sessionInvariant w → sessionInvariant (logout w).2.
Proof.
  intros ((H1 & H2 & H3 & H4 & H5) & H6). unfold logout. run_M. simpl.
  repeat split; simpl; try done.
  - unfold QUESTIONS_PER_GAME. lia.
  - by intros i ?%elem_of_nil.
Qed.

Lemma dispatch_invariant e w o w' :
  dispatch theme e w = Some (o, w') → sessionInvariant w → sessionInvariant w'.
Proof.
  assert (∀ (x : Outcome () * World), Some x = Some (o, w') → w' = x.2) as Hsnd
    by (by intros x [= ->]).
  intros Hstep Hinv. destruct e; unfold dispatch in Hstep.
  - apply Hsnd in Hstep as ->. by apply startGame_invariant.
  - case_decide as Hguard; [|done]. destruct Hguard as (Hgame & Hlive & _).
    apply Hsnd in Hstep as ->. by apply selectAnswer_invariant.
  - apply Hsnd in Hstep as ->. by apply nextQuestion_invariant.
  - apply Hsnd in Hstep as ->. by apply goBack_invariant.
  - apply Hsnd in Hstep as ->. by apply goForward_invariant.
  - apply Hsnd in Hstep as ->. by apply playAgain_invariant.
  - apply Hsnd in Hstep as ->. by apply resetProgress_invariant.
  - apply Hsnd in Hstep as ->. by apply logout_invariant.
Qed.

Lemma run_invariant events w w' :
  run theme events w = Some w' → sessionInvariant w → sessionInvariant w'.
Proof.
  revert w. induction events as [|e events IH]; intros w Hrun Hinv; simpl in Hrun.
  - by inversion Hrun; subst.
  - destruct (dispatch theme e w) as [[o w1]|] eqn:Hstep; [|done].
    eapply IH; [done|]. by eapply dispatch_invariant.
Qed.

Lemma initialWorld_invariant bank storage remembered r :
  sessionInvariant (initialWorld bank storage remembered r).
Proof.
  repeat split; simpl; try done.
  - unfold QUESTIONS_PER_GAME. lia.
  - by intros i ?%elem_of_nil.
Qed.

Lemma reachable_invariant w : reachable theme w → sessionInvariant w.
Proof.
  intros (bank & storage & remembered & r & events & Hrun).
  eapply run_invariant; [done|apply initialWorld_invariant].
Qed.

(** Whenever an option can be clicked, the question it belongs to exists:
    [selectAnswer] never runs with an [undefined] question index. *)
Lemma handlers_have_question w :
  reachable theme w →
  activeScreen w = gameScreen → optionHandlers w = true →
  ∃ q, currentQuestionIndex w = Some q ∧ is_Some (questions w !! q).
Proof.
  intros [_ Hquestion]%reachable_invariant Hgame Hlive.
  destruct (Hquestion Hgame Hlive) as (q & Hq & Hvalid).
  exists q. split; [done|]. by apply lookup_lt_is_Some_2.
Qed.
End InvariantFacts.

(** ** Sessions shorter than [QUESTIONS_PER_GAME] *)

(** Past the end of a session of fewer than [QUESTIONS_PER_GAME] questions
    [nextQuestion] throws and the completion screen is not shown. *)
Lemma nextQuestion_past_end theme w :
  sessionAnswered w < QUESTIONS_PER_GAME →
  length (sessionQuestions w) ≤ sessionAnswered w →
  (nextQuestion theme w).1 = Throw TypeError
  ∧ activeScreen (nextQuestion theme w).2 = activeScreen w
  ∧ currentQuestionIndex (nextQuestion theme w).2 = None.
Proof.
  intros Hlive Hend. apply lookup_ge_None in Hend.
  unfold nextQuestion, loadNextQuestion. run_M.
  destruct (decide (QUESTIONS_PER_GAME ≤ _)); [simpl in *; lia|].
  destruct (decide (QUESTIONS_PER_GAME ≤ _)); [simpl in *; lia|].
  cbn [sessionQuestions sessionAnswered set_browseReturnPosition].
  rewrite Hend.
  destruct (shuffle [0; 1; 2; 3] _) as [shuffled r]. done.
Qed.

(** C3, at the sample bank of three questions: once the three questions of
    the session are answered, Next throws a [TypeError] and leaves the game
    screen up instead of showing the completion screen; and with an empty
    bank starting a game throws at once. *)
Theorem undersized_session_never_completes :
  let finished := run defaultTheme undersizedGame samplePage in
  (sessionQuestions <$> finished) = Some [2; 1; 0]
  ∧ (sessionAnswered <$> finished) = Some 3
  ∧ ((λ w, (nextQuestion defaultTheme w).1) <$> finished) = Some (Throw TypeError)
  ∧ ((λ w, activeScreen (nextQuestion defaultTheme w).2) <$> finished)
    = Some gameScreen
  ∧ sessionQuestions (startGame defaultTheme "ann" emptyBankPage).2 = []
  ∧ (startGame defaultTheme "ann" emptyBankPage).1 = Throw TypeError.
Proof. vm_compute. repeat split; reflexivity. Qed.

(** ** The completion screen *)

Lemma findRank_first_match table pct i r :
  table !! i = Some r →
  (min r ≤ pct)%Z →
  (∀ j r', j < i → table !! j = Some r' → ¬ (min r' ≤ pct)%Z) →
  findRank table pct = label r.
Proof.
  revert i. induction table as [|r0 table IH]; intros [|i] Hi Hmeets Hfirst;
    simplify_eq/=.
  - by rewrite decide_True.
  - rewrite decide_False by (apply (Hfirst 0 r0); [lia|done]).
    apply (IH i); [done..|]. intros j r' Hj Hr'. apply (Hfirst (S j) r'); [lia|done].
Qed.

Lemma findRank_no_match table pct :
  (∀ r, r ∈ table → ¬ (min r ≤ pct)%Z) → findRank table pct = EmptyString.
Proof.
  induction table as [|r0 table IH]; intros Hnone; simpl; [done|].
  rewrite decide_False by (apply Hnone; by left).
  apply IH. intros r Hr. apply Hnone. by right.
Qed.

(** C4: the completion screen is only entered with
    [sessionAnswered >= QUESTIONS_PER_GAME]; in every reachable state where
    that holds, the percentage it computes is the rounded percentage of
    [sessionScore] out of [len(sessionQuestions)], the rank it shows is the
    label of the first entry of the table, in the order given, whose minimum
    the percentage reaches (none reached: the empty label), and Next leads
    to this screen.  With the default table a score of 18 gives the label
    of the 90 threshold. *)
Theorem completion_score_and_rank theme w :
  reachable theme w →
  QUESTIONS_PER_GAME ≤ sessionAnswered w →
  let w' := (showCompletionScreen theme w).2 in
  activeScreen w' = completionScreen
  ∧ length (sessionQuestions w) = QUESTIONS_PER_GAME
  ∧ percentage w = roundedPercent (sessionScore w) (length (sessionQuestions w))
  ∧ (∀ i r, ranks theme !! i = Some r →
            (min r ≤ percentage w)%Z →
            (∀ j r', j < i → ranks theme !! j = Some r' →
                     ¬ (min r' ≤ percentage w)%Z) →
            rankDisplay w' = label r)
  ∧ ((∀ r, r ∈ ranks theme → ¬ (min r ≤ percentage w)%Z) → rankDisplay w' = EmptyString)
  ∧ (ranks theme = ranks defaultTheme → sessionScore w = 18 →
       percentage w = 90%Z ∧ rankDisplay w' = "⚡ Olympian Champion")
  ∧ activeScreen (nextQuestion theme w).2 = completionScreen
  ∧ rankDisplay (nextQuestion theme w).2 = rankDisplay w'.
Proof.
  intros ((Hanswered & Hlength & _) & _)%reachable_invariant Hdone w'.
  assert (length (sessionQuestions w) = QUESTIONS_PER_GAME) as Hfull by lia.
  assert (rankDisplay w' = findRank (ranks theme) (percentage w)) as Hrank by done.
  split; [done|]. split; [done|]. split; [by rewrite Hfull|].
  split; [|split; [|split; [|split]]].
  - intros i r Hi Hmeets Hfirst. rewrite Hrank. by eapply findRank_first_match.
  - intros Hnone. rewrite Hrank. by apply findRank_no_match.
  - intros Htable Hscore. rewrite Hrank, Htable. unfold percentage. rewrite Hscore.
    split; reflexivity.
  - unfold nextQuestion. run_M. simpl. by rewrite decide_True.
  - unfold nextQuestion. run_M. simpl. by rewrite decide_True.
Qed.

Lemma fullGame_runs : run defaultTheme fullGame largePage = Some fullGamePage.
Proof.
  unfold fullGamePage.
  destruct (run defaultTheme fullGame largePage) as [w|] eqn:Hrun; [done|].
  vm_compute in Hrun. discriminate.
Qed.

Lemma completion_score_and_rank_witness :
  let w' := (showCompletionScreen defaultTheme fullGamePage).2 in
  activeScreen w' = completionScreen
  ∧ length (sessionQuestions fullGamePage) = 20
  ∧ percentage fullGamePage = 90%Z
  ∧ rankDisplay w' = "⚡ Olympian Champion".
Proof.
  assert (reachable defaultTheme fullGamePage) as Hreach.
  { exists largeBank, ∅, None, sampleEntropy, fullGame. exact fullGame_runs. }
  assert (QUESTIONS_PER_GAME ≤ sessionAnswered fullGamePage) as Hdone
    by (vm_compute; lia).
  assert (sessionScore fullGamePage = 18) as Hscore by (vm_compute; reflexivity).
  destruct (completion_score_and_rank defaultTheme fullGamePage Hreach Hdone)
    as (Hscreen & Hlength & _ & _ & _ & Heighteen & _).
  destruct (Heighteen eq_refl Hscore) as [Hpercent Hlabel].
  by repeat split.
Defined.

(** * Further properties of the engine *)

(** ** The shuffle, continued *)

Lemma shuffleFrom_draws {A} i (a : list A) r k :
  (shuffleFrom i a r).2 k = r (i + k).
Proof.
  revert a r k. induction i as [|i IH]; intros a r k; simpl; [done|].
  rewrite IH. simpl. f_equal; lia.
Qed.

(** X1: [shuffle] returns a permutation of the array it is given, of the
    same length, and draws exactly [length - 1] random numbers (none for an
    empty or a one-element array). *)
Theorem shuffle_permutes_and_draws {A} (a : list A) r :
  (shuffle a r).1 ≡ₚ a
  ∧ length (shuffle a r).1 = length a
  ∧ ∀ k, (shuffle a r).2 k = r (length a - 1 + k).
Proof.
  split; [apply shuffle_Permutation|]. split; [apply shuffle_length|].
  intros k. apply shuffleFrom_draws.
Qed.

Section SwapFacts.
Context {A : Type}.
Implicit Types (a : list A).

Lemma swap_lookup_l a i j x y :
  a !! i = Some x → a !! j = Some y → swap a i j !! i = Some y.
Proof.
  intros Hi Hj. unfold swap. rewrite Hi, Hj.
  assert (i < length a) by (by eapply lookup_lt_Some).
  destruct (decide (i = j)) as [->|Hne].
  - rewrite list_lookup_insert_eq by (by rewrite length_insert). congruence.
  - rewrite list_lookup_insert_ne by done. by rewrite list_lookup_insert_eq.
Qed.

Lemma swap_length a i j : length (swap a i j) = length a.
Proof. unfold swap. repeat case_match; by rewrite ?length_insert. Qed.

Lemma swap_take a i j n :
  i < n → j < n → take n (swap a i j) = swap (take n a) i j.
Proof.
  intros Hi Hj. unfold swap. rewrite !lookup_take_lt by done.
  repeat case_match; try done; by rewrite !take_insert_lt.
Qed.

Lemma swap_drop a i j n :
  i < n → j < n → drop n (swap a i j) = drop n a.
Proof.
  intros Hi Hj. unfold swap. repeat case_match; try done;
    by rewrite !drop_insert_lt.
Qed.

(** With the right draws the loop entered at [i] turns [a] into any
    rearrangement of its first [i + 1] elements. *)
Lemma shuffleFrom_reaches i a target :
  i < length a →
  take (S i) a ≡ₚ take (S i) target →
  drop (S i) a = drop (S i) target →
  ∃ r, (shuffleFrom i a r).1 = target.
Proof.
  revert a. induction i as [|i IH]; intros a Hlen Htake Hdrop.
  - exists (λ _, 0). simpl.
    rewrite <- (take_drop 1 a), <- (take_drop 1 target), Hdrop. f_equal.
    destruct a as [|x a]; [simpl in Hlen; lia|].
    simpl in *. rewrite take_0 in *. by apply Permutation_singleton_l.
  - assert (length a = length target) as Hsame.
    { rewrite <- (take_drop (S (S i)) a), <- (take_drop (S (S i)) target).
      by rewrite !length_app, Htake, Hdrop. }
    destruct (lookup_lt_is_Some_2 target (S i) ltac:(lia)) as [x Hx].
    assert (x ∈ take (S (S i)) a) as Hin.
    { rewrite Htake. apply elem_of_take. exists (S i). split; [done|lia]. }
    apply elem_of_take in Hin as (j & Hj & Hjlt).
    destruct (lookup_lt_is_Some_2 a (S i) Hlen) as [y Hy].
    pose proof (swap_lookup_l a (S i) j y x Hy Hj) as Hlast.
    destruct (IH (swap a (S i) j)) as [r' Hr'].
    + rewrite swap_length. lia.
    + apply (Permutation_app_inv_r [x]).
      rewrite <- (take_S_r _ _ _ Hlast), <- (take_S_r _ _ _ Hx).
      rewrite swap_take by lia. by rewrite swap_Permutation.
    + rewrite (drop_S _ _ _ Hlast), (drop_S _ _ _ Hx).
      f_equal. by rewrite swap_drop by lia.
    + exists (λ k, match k with 0 => j | S k => r' k end).
      cbn [shuffleFrom randomBelow].
      replace (j `mod` (S i + 1)) with j by (symmetry; apply Nat.mod_small; lia).
      exact Hr'.
Qed.
End SwapFacts.

(** X2: every rearrangement of an array is the result of [shuffle] for some
    sequence of draws: the shuffle excludes no order. *)
Theorem shuffle_reaches_every_order {A} (a target : list A) :
  a ≡ₚ target → ∃ r, (shuffle a r).1 = target.
Proof.
  intros Hperm. unfold shuffle.
  destruct a as [|x a].
  { apply Permutation_nil_l in Hperm. subst target.
    exists (λ _ : nat, 0). reflexivity. }
  apply shuffleFrom_reaches.
  - simpl. lia.
  - replace (S (length (x :: a) - 1)) with (length (x :: a)) by (simpl; lia).
    rewrite firstn_all, (Permutation_length Hperm), firstn_all. done.
  - replace (S (length (x :: a) - 1)) with (length (x :: a)) by (simpl; lia).
    rewrite drop_all. by rewrite (Permutation_length Hperm), drop_all.
Qed.

Lemma shuffle_reaches_every_order_witness :
  ∃ r, (shuffle [0; 1; 2; 3] r).1 = [3; 1; 0; 2].
Proof.
  apply (shuffle_reaches_every_order [0; 1; 2; 3] [3; 1; 0; 2]).
  apply (Permutation_trans (l' := [0; 1; 3; 2])).
  - do 2 apply Permutation_skip. apply Permutation_swap.
  - apply (Permutation_trans (l' := [0; 3; 1; 2])).
    + apply Permutation_skip, Permutation_swap.
    + apply (Permutation_trans (l' := [3; 0; 1; 2])); [apply Permutation_swap|].
      apply Permutation_skip, Permutation_swap.
Defined.

(** ** The selector, continued *)

Lemma categories_length_ge bank us :
  length bank
  ≤ length (unseenOf bank us ++ seenIncorrectOf bank us ++ seenCorrectOf bank us).
Proof.
  transitivity (length (seq 0 (length bank))); [by rewrite length_seq|].
  apply submseteq_length.
  apply NoDup_submseteq; [apply NoDup_seq|].
  intros i Hi%elem_of_seq. rewrite !elem_of_app.
  apply categories_cover. lia.
Qed.

(** X3: whatever the progress record holds, also one that breaks
    [correctQuestions ⊆ seenQuestions], the selection consists of valid
    indices and has between [min(QUESTIONS_PER_GAME, N)] and
    [QUESTIONS_PER_GAME] of them; it is empty only for an empty bank. *)
Theorem selectSessionQuestions_bounds bank us r :
  let selected := (selectSessionQuestions bank us r).1 in
  (∀ i, i ∈ selected → i < length bank)
  ∧ Nat.min QUESTIONS_PER_GAME (length bank) ≤ length selected
  ∧ length selected ≤ QUESTIONS_PER_GAME
  ∧ (selected = [] ↔ bank = []).
Proof.
  intros selected. unfold selected.
  destruct (selectSessionQuestions_spec bank us r) as (u & s & c & Hu & Hs & Hc & Hsel).
  pose proof (categories_length_ge bank us) as Hge.
  rewrite <- Hu, <- Hs, <- Hc in Hge.
  assert (Nat.min QUESTIONS_PER_GAME (length bank)
          ≤ length (selectSessionQuestions bank us r).1) as Hmin.
  { rewrite Hsel, length_take. lia. }
  split; [intros i; apply selectSessionQuestions_valid|].
  split; [done|]. split; [apply selectSessionQuestions_length_le|].
  split.
  - intros Hnil. rewrite Hnil in Hmin. simpl in Hmin.
    destruct bank; [done|]. unfold QUESTIONS_PER_GAME in Hmin. simpl in Hmin. lia.
  - intros ->. destruct (selectSessionQuestions [] us r).1 as [|i sel] eqn:Hs0; [done|].
    assert (i < length (@nil Question)) as Hi.
    { apply (selectSessionQuestions_valid [] us r). rewrite Hs0. by left. }
    simpl in Hi. lia.
Qed.

(** X4: a bank of at most [QUESTIONS_PER_GAME] questions is asked in full:
    with [correctQuestions ⊆ seenQuestions] the selection is a rearrangement
    of all the indices of the bank, whatever was seen or mastered before. *)
Theorem small_bank_selects_every_question bank us r :
  length bank ≤ QUESTIONS_PER_GAME →
  correctWithinSeen us →
  (selectSessionQuestions bank us r).1 ≡ₚ seq 0 (length bank).
Proof.
  intros Hsmall Hinv.
  destruct (selectSessionQuestions_spec bank us r) as (u & s & c & Hu & Hs & Hc & Hsel).
  assert (u ++ s ++ c ≡ₚ seq 0 (length bank)) as Hall.
  { rewrite Hu, Hs, Hc. by apply categories_partition. }
  rewrite Hsel, take_ge; [done|]. by rewrite Hall, length_seq.
Qed.

Lemma small_bank_selects_every_question_witness :
  (selectSessionQuestions sampleQuestions masteredTwo sampleEntropy).1 ≡ₚ [0; 1; 2].
Proof.
  apply (small_bank_selects_every_question sampleQuestions masteredTwo sampleEntropy).
  - vm_compute. lia.
  - intros i Hi. exact Hi.
Defined.

(** ** Stored progress *)

Lemma storageKey_inj theme u u' :
  storageKey theme (Some u) = storageKey theme (Some u') → u = u'.
Proof.
  unfold storageKey. simpl. intros Heq.
  apply String.app_inj in Heq. by apply String.app_inj in Heq.
Qed.

(** X5: what [saveUserData] stores for a user is what [getUserData] reads
    back for that user, and the records of all other users read as
    before. *)
Theorem stored_progress_round_trip theme u data w :
  let w' := (saveUserData theme (Some u) data w).2 in
  getUserData theme u w' = data
  ∧ ∀ u', u' ≠ u → getUserData theme u' w' = getUserData theme u' w.
Proof.
  unfold saveUserData, getUserData, modify. simpl. split.
  - by rewrite lookup_insert_eq.
  - intros u' Hne. rewrite lookup_insert_ne; [done|].
    intros Heq. apply Hne. symmetry. by apply (storageKey_inj theme).
Qed.

Lemma stored_progress_round_trip_witness :
  let w' := (saveUserData defaultTheme (Some "ann") allMastered samplePage).2 in
  getUserData defaultTheme "ann" w' = allMastered
  ∧ getUserData defaultTheme "bob" w' = emptyStats.
Proof.
  destruct (stored_progress_round_trip defaultTheme "ann" allMastered samplePage)
    as [Hsame Hother].
  split; [exact Hsame|].
  rewrite (Hother "bob"); [reflexivity|discriminate].
Defined.

(** ** Starting a session *)

(** What [loadNextQuestion] does while fewer than [QUESTIONS_PER_GAME]
    answers were given, whether it finds the question or throws. *)
Lemma loadNextQuestion_live theme w :
  sessionAnswered w < QUESTIONS_PER_GAME →
  let w' := (loadNextQuestion theme w).2 in
  let found := sessionQuestions w !! sessionAnswered w ≫= (questions w !!.) in
  viewingIndex w' = sessionAnswered w
  ∧ browseReturnPosition w' = browseReturnPosition w
  ∧ activeScreen w' = activeScreen w
  ∧ lastUser w' = lastUser w
  ∧ currentQuestionIndex w' = sessionQuestions w !! sessionAnswered w
  ∧ (loadNextQuestion theme w).1
    = (if found is Some _ then Ret () else Throw TypeError)
  ∧ optionHandlers w' = (if found is Some _ then true else optionHandlers w).
Proof.
  intros Hlive. unfold loadNextQuestion. run_M.
  rewrite decide_False by lia. simpl.
  destruct (sessionQuestions w !! sessionAnswered w) as [idx|]; simpl.
  - destruct (questions w !! idx); simpl;
      destruct (shuffle [0; 1; 2; 3] (entropy w)) as [shuffled r]; simpl;
      [destruct (browseReturnPosition w) eqn:Hbrowse; simpl|].
    all: by repeat split.
  - destruct (shuffle [0; 1; 2; 3] (entropy w)) as [shuffled r]; simpl.
    by repeat split.
Qed.


(** A session that was just reset and selected, as [startGame], [playAgain]
    and [resetProgress] leave it after [loadNextQuestion]. *)
Lemma fresh_session_loaded theme w0 :
  sessionAnswered w0 = 0 →
  let w' := (loadNextQuestion theme w0).2 in
  sameSession w0 w'
  ∧ viewingIndex w' = 0
  ∧ browseReturnPosition w' = browseReturnPosition w0
  ∧ activeScreen w' = activeScreen w0
  ∧ lastUser w' = lastUser w0
  ∧ currentQuestionIndex w' = sessionQuestions w0 !! 0
  ∧ (loadNextQuestion theme w0).1
    = (if sessionQuestions w0 !! 0 ≫= (questions w0 !!.) is Some _
       then Ret () else Throw TypeError)
  ∧ optionHandlers w'
    = (if sessionQuestions w0 !! 0 ≫= (questions w0 !!.) is Some _
       then true else optionHandlers w0).
Proof.
  intros Hzero.
  assert (sessionAnswered w0 < QUESTIONS_PER_GAME) as Hlive
    by (rewrite Hzero; unfold QUESTIONS_PER_GAME; lia).
  destruct (loadNextQuestion_live theme w0 Hlive) as (H1 & H2 & H3 & H4 & H5 & H6 & H7).
  rewrite Hzero in *.
  split; [apply loadNextQuestion_sameSession|]. by repeat split.
Qed.

(** Runs a handler that resets the session, selects and loads: names the
    selection and states what [loadNextQuestion] did to the reset state. *)
Ltac load_fresh_session theme :=
  run_M; simpl;
  destruct (selectSessionQuestions _ _ _) as [selected r] eqn:Hselected; simpl;
  match goal with
  | |- context [loadNextQuestion theme ?w0] =>
      destruct (fresh_session_loaded theme w0 eq_refl)
        as ((Hqs & Huser & Hscore & Hstreak & Hsq & Hsa & Hstats & Hhist & Hstore)
            & Hview & Hbrowse & Hscreen & Hlast & Hcur & Hout & Hhandlers);
      simpl in Hqs, Huser, Hscore, Hstreak, Hsq, Hsa, Hstats, Hhist, Hstore,
               Hview, Hbrowse, Hscreen, Hlast, Hcur, Hout, Hhandlers
  end.



(** X7: [playAgain] starts a new session for the same user and keeps the
    progress: the user, the progress record and the store are untouched,
    the session counters, the history and the browse state are reset, and
    the new session is selected from the progress made so far. *)
Theorem playAgain_keeps_progress theme w :
  let w' := (playAgain theme w).2 in
  currentUser w' = currentUser w
  ∧ userStats w' = userStats w
  ∧ localStorage w' = localStorage w
  ∧ sessionScore w' = 0 ∧ streak w' = 0 ∧ sessionAnswered w' = 0
  ∧ answerHistory w' = [] ∧ viewingIndex w' = 0
  ∧ browseReturnPosition w' = None
  ∧ activeScreen w' = gameScreen
  ∧ sessionQuestions w'
    = (selectSessionQuestions (questions w) (userStats w) (entropy w)).1.
Proof.
  unfold playAgain. load_fresh_session theme.
  rewrite ?Huser, ?Hscore, ?Hstreak, ?Hsq, ?Hsa, ?Hstats, ?Hhist, ?Hstore,
    ?Hview, ?Hbrowse, ?Hscreen.
  by repeat split.
Qed.

(** A selection made from a record in which correct answers are among the
    seen ones has no index twice and [min(QUESTIONS_PER_GAME, N)] indices. *)
Lemma selection_without_repeats bank us r :
  correctWithinSeen us →
  NoDup (selectSessionQuestions bank us r).1
  ∧ length (selectSessionQuestions bank us r).1
    = Nat.min QUESTIONS_PER_GAME (length bank).
Proof.
  intros Hinv.
  destruct (selectSessionQuestions_spec bank us r) as (u & s & c & Hu & Hs & Hc & Hsel).
  assert (u ++ s ++ c ≡ₚ seq 0 (length bank)) as Hall.
  { rewrite Hu, Hs, Hc. by apply categories_partition. }
  split.
  - rewrite Hsel. eapply sublist_NoDup; [|apply sublist_take].
    rewrite Hall. apply NoDup_seq.
  - by rewrite Hsel, length_take, Hall, length_seq.
Qed.

(** X8: a confirmed [resetProgress] empties the progress record in memory
    and in the store, so a later read for the user yields the empty
    defaults, and starts a session as for a new user: no index twice,
    [min(QUESTIONS_PER_GAME, N)] valid indices, counters at zero.  An
    unconfirmed one changes nothing. *)
Theorem resetProgress_starts_over theme w :
  let w' := (resetProgress theme true w).2 in
  userStats w' = emptyStats
  ∧ localStorage w' = <[storageKey theme (currentUser w) := emptyStats]> (localStorage w)
  ∧ (∀ u, currentUser w = Some u → getUserData theme u w' = emptyStats)
  ∧ currentUser w' = currentUser w
  ∧ sessionScore w' = 0 ∧ streak w' = 0 ∧ sessionAnswered w' = 0
  ∧ answerHistory w' = [] ∧ viewingIndex w' = 0
  ∧ browseReturnPosition w' = None
  ∧ activeScreen w' = gameScreen
  ∧ sessionQuestions w'
    = (selectSessionQuestions (questions w) emptyStats (entropy w)).1
  ∧ NoDup (sessionQuestions w')
  ∧ length (sessionQuestions w') = Nat.min QUESTIONS_PER_GAME (length (questions w))
  ∧ resetProgress theme false w = (Ret (), w).
Proof.
  assert (correctWithinSeen emptyStats) as Hempty.
  { intros i Hi. simpl in Hi. by apply elem_of_nil in Hi. }
  destruct (selection_without_repeats (questions w) emptyStats (entropy w)
              Hempty) as (Hnodup & Hlen).
  unfold resetProgress. load_fresh_session theme.
  rewrite ?Huser, ?Hscore, ?Hstreak, ?Hsq, ?Hsa, ?Hstats, ?Hhist, ?Hstore,
    ?Hview, ?Hbrowse, ?Hscreen.
  rewrite ?Hselected in Hlen, Hnodup. simpl in Hlen, Hnodup.
  repeat (split; [done|]). split.
  { intros u Hu. unfold getUserData. rewrite Hstore, Hu.
    by rewrite lookup_insert_eq. }
  repeat (split; [done|]). done.
Qed.

(** ** Progress across sessions *)




(** ** An answer and the other questions *)

Lemma elem_of_delete_other (l : list nat) k q i :
  l !! k = Some q → i ≠ q → i ∈ delete k l ↔ i ∈ l.
Proof.
  intros Hk Hne. rewrite (delete_Permutation l k q Hk) at 2.
  rewrite elem_of_cons. tauto.
Qed.

Lemma answeredStats_other q b us i :
  i ≠ q →
  (i ∈ seenQuestions (answeredStats (Some q) b us) ↔ i ∈ seenQuestions us)
  ∧ (i ∈ correctQuestions (answeredStats (Some q) b us) ↔ i ∈ correctQuestions us).
Proof.
  intros Hne. unfold answeredStats. simpl.
  assert (∀ us', i ∈ seenQuestions (pushSeen (Some q) us') ↔ i ∈ seenQuestions us')
    as Hseen.
  { intros us'. unfold pushSeen, includes. case_bool_decide; simpl; [done|].
    rewrite elem_of_app, list_elem_of_singleton. tauto. }
  rewrite Hseen, pushSeen_correctQuestions. destruct b; simpl.
  - rewrite pushCorrect_seenQuestions. split; [done|].
    unfold pushCorrect, includes. case_bool_decide; simpl; [done|].
    rewrite elem_of_app, list_elem_of_singleton. tauto.
  - rewrite spliceCorrect_seenQuestions. split; [done|].
    unfold spliceCorrect.
    destruct (decide (q ∈ correctQuestions us)) as [Hin|Hout].
    + destruct (indexOf_elem _ _ Hin) as (k & -> & Hk).
      rewrite decide_True by lia. simpl. rewrite Nat2Z.id.
      by apply (elem_of_delete_other _ k q).
    + rewrite indexOf_not_elem by done. by rewrite decide_False by lia.
Qed.

(** X10: an answer to question [q] records [q] as seen and, when correct,
    as correct; for every other question, being seen and being correct are
    as before; and an array without duplicates stays without
    duplicates. *)
Theorem answer_changes_only_current_question theme w d q :
  currentQuestionIndex w = Some q →
  let us := userStats w in
  let us' := userStats (selectAnswer theme d w).2 in
  q ∈ seenQuestions us'
  ∧ (Z.of_nat d = currentCorrectShuffled w → q ∈ correctQuestions us')
  ∧ (∀ i, i ≠ q →
       (i ∈ seenQuestions us' ↔ i ∈ seenQuestions us)
       ∧ (i ∈ correctQuestions us' ↔ i ∈ correctQuestions us))
  ∧ (NoDup (seenQuestions us) → NoDup (correctQuestions us) →
       NoDup (seenQuestions us') ∧ NoDup (correctQuestions us')).
Proof.
  intros Hq us us'. unfold us'. rewrite selectAnswer_userStats, Hq. fold us.
  split; [|split; [|split]].
  - unfold answeredStats. simpl. apply pushSeen_elem.
  - intros Hd. rewrite bool_decide_eq_true_2 by done.
    unfold answeredStats. simpl. rewrite pushSeen_correctQuestions. simpl.
    unfold pushCorrect, includes. case_bool_decide; simpl; [done|].
    apply elem_of_app. right. by apply list_elem_of_singleton.
  - intros i Hi. by apply answeredStats_other.
  - intros Hseen Hcorrect. by apply answeredStats_NoDup.
Qed.

Lemma answer_changes_only_current_question_witness :
  let us' := userStats (selectAnswer defaultTheme 0 returningPage).2 in
  2 ∈ seenQuestions us'
  ∧ (0 ∈ correctQuestions us' ↔ 0 ∈ [0; 1; 2])
  ∧ NoDup (correctQuestions us').
Proof.
  destruct (answer_changes_only_current_question defaultTheme returningPage 0 2)
    as (Hseen & _ & Hother & Hnodup).
  - vm_compute. reflexivity.
  - split; [exact Hseen|]. split.
    + apply (Hother 0). discriminate.
    + apply Hnodup; apply (NoDup_seq 0 3).
Defined.

(** ** Ranks *)

(** X11: when the table is sorted from the highest threshold down, as the
    script's comment asks, the rank shown is that of the highest threshold
    the percentage reaches. *)
Theorem findRank_highest_threshold table pct :
  (∀ i j ri rj, i < j → table !! i = Some ri → table !! j = Some rj →
                (min rj ≤ min ri)%Z) →
  ∀ r, r ∈ table → (min r ≤ pct)%Z →
    ∃ best, best ∈ table ∧ findRank table pct = label best
            ∧ (min best ≤ pct)%Z ∧ (min r ≤ min best)%Z.
Proof.
  induction table as [|r0 table IH]; intros Hsorted r Hr Hmeets.
  { by apply elem_of_nil in Hr. }
  simpl. case_decide as Hfirst.
  - exists r0. split; [by left|]. split; [done|]. split; [done|].
    apply elem_of_cons in Hr as [->|Hr]; [done|].
    apply list_elem_of_lookup in Hr as [j Hj].
    apply (Hsorted 0 (S j)); [lia|done..].
  - apply elem_of_cons in Hr as [->|Hr]; [done|].
    destruct (IH ltac:(intros i j ri rj Hij; apply (Hsorted (S i) (S j)); lia)
                r Hr Hmeets)
      as (best & Hbest & Hfound & Hle & Hge).
    exists best. split; [by right|done].
Qed.

Lemma findRank_highest_threshold_witness :
  ∃ best, best ∈ ranks defaultTheme
          ∧ findRank (ranks defaultTheme) 93 = label best
          ∧ (min best ≤ 93)%Z ∧ (75 ≤ min best)%Z.
Proof.
  apply (findRank_highest_threshold (ranks defaultTheme) 93%Z) with
    (r := mkRank 75 "🦁 Hero of Legend").
  - intros i j ri rj Hij Hi Hj.
    do 6 (destruct i as [|i]; [do 7 (destruct j as [|j]; [simplify_eq/=; lia|]);
                               done|]).
    done.
  - apply list_elem_of_lookup. by exists 2.
  - simpl. lia.
Defined.

(** X12: for every percentage from 0 to 100 the default rank table gives
    the rank that the comparison chain of the earlier engine gave. *)
Theorem default_ranks_match_legacy_chain pct :
  (0 ≤ pct ≤ 100)%Z → findRank (ranks defaultTheme) pct = legacyRank pct.
Proof.
  intros Hrange. unfold legacyRank. simpl.
  repeat case_decide; try reflexivity; lia.
Qed.

Lemma default_ranks_match_legacy_chain_witness :
  findRank (ranks defaultTheme) 90 = legacyRank 90.
Proof. apply default_ranks_match_legacy_chain. lia. Defined.

(** ** The session state in every reachable state *)

Lemma indexOf_iff_lookup c (l : list nat) d :
  NoDup l → Z.of_nat d = indexOf c l ↔ l !! d = Some c.
Proof.
  intros Hnodup. destruct (decide (c ∈ l)) as [Hin|Hout].
  - destruct (indexOf_elem _ _ Hin) as (k & -> & Hk). split.
    + intros Hd%(inj Z.of_nat). by subst.
    + intros Hd. f_equal. by eapply NoDup_lookup.
  - rewrite indexOf_not_elem by done. split; [lia|].
    intros Hd. destruct Hout. by eapply list_elem_of_lookup_2.
Qed.

Lemma correctCount_snoc history entry :
  correctCount (history ++ [Some entry])
  = correctCount history + (if isCorrect entry then 1 else 0).
Proof.
  unfold correctCount. rewrite filter_app, length_app. f_equal.
  rewrite filter_cons, filter_nil. simpl.
  destruct (isCorrect entry); by case_decide.
Qed.

Lemma arraySet_at_end {A} (array : list (option A)) (x : A) :
  arraySet array (length array) x = array ++ [Some x].
Proof.
  unfold arraySet. rewrite decide_False by lia.
  by rewrite Nat.sub_diag.
Qed.

Lemma answeredStats_seen_mono q b us i :
  i ∈ seenQuestions us → i ∈ seenQuestions (answeredStats q b us).
Proof.
  intros Hi. unfold answeredStats. simpl. apply pushSeen_mono.
  destruct b; simpl.
  - by rewrite pushCorrect_seenQuestions.
  - by rewrite spliceCorrect_seenQuestions.
Qed.

Lemma selectSessionQuestions_length_ge bank us r :
  Nat.min QUESTIONS_PER_GAME (length bank)
  ≤ length (selectSessionQuestions bank us r).1.
Proof.
  destruct (selectSessionQuestions_spec bank us r) as (u & s & c & Hu & Hs & Hc & Hsel).
  pose proof (categories_length_ge bank us) as Hge.
  rewrite <- Hu, <- Hs, <- Hc in Hge. rewrite Hsel, length_take. lia.
Qed.

Lemma runnerInvariant_entry w i :
  runnerInvariant w → i < sessionAnswered w →
  ∃ entry q item,
    arrayGet (answerHistory w) i = Some entry
    ∧ questionIndex entry = Some q
    ∧ questions w !! q = Some item.
Proof.
  intros (_ & _ & Hlen & Hentries & _) Hi.
  destruct (lookup_lt_is_Some_2 (answerHistory w) i ltac:(lia)) as [e He].
  destruct (Hentries i e He) as (entry & -> & q & item & Hq & _ & Hitem & _).
  exists entry, q, item. unfold arrayGet. by rewrite He.
Qed.

(** An answered position is reviewed without a throw. *)
Lemma showReviewQuestion_answered position w entry q item :
  arrayGet (answerHistory w) position = Some entry →
  questionIndex entry = Some q →
  questions w !! q = Some item →
  showReviewQuestion position w
  = updateNavButtons (set_nextBtnVisible false (set_optionHandlers false w)).
Proof.
  intros Hentry Hq Hitem. unfold showReviewQuestion. run_M.
  rewrite Hentry, Hq. simpl. by rewrite Hitem.
Qed.


(** From here on the session size is a number like any other. *)
Opaque QUESTIONS_PER_GAME.

(** Settles an invariant of a state that is given by its assignments. *)
Ltac close_invariant :=
  unfold runnerInvariant, entryFaithful, liveQuestion in *; simpl in *;
  intuition (eauto; try lia; try congruence).

Lemma goBack_runnerInvariant w :
  runnerInvariant w → runnerInvariant (goBack w).2.
Proof.
  intros Hinv. unfold goBack. run_M. case_decide as Hfirst; simpl; [done|].
  destruct (runnerInvariant_entry w (viewingIndex w - 1) Hinv)
    as (entry & q & item & Hentry & Hq & Hitem).
  { destruct Hinv as (_ & _ & _ & _ & Hview & _). lia. }
  destruct (browseReturnPosition w) as [p|] eqn:Hbrowse; simpl.
  - erewrite showReviewQuestion_answered by done. run_M. simpl.
    rewrite Hbrowse. simpl. close_invariant.
  - erewrite showReviewQuestion_answered by done. run_M. simpl.
    close_invariant.
Qed.

Section RunnerInvariantFacts.
Context (theme : Theme).
Implicit Types (w : World).

(** Loading is entered outside browse mode; whether options were clickable
    before does not matter. *)
Lemma loadNextQuestion_runnerInvariant w :
  loadReady w →
  runnerInvariant (set_optionHandlers false w) →
  browseReturnPosition w = None →
  runnerInvariant (loadNextQuestion theme w).2.
Proof.
  intros (H1 & H2 & H3 & H4 & H5) Hinv Hbrowse.
  unfold loadNextQuestion, showCompletionScreen. run_M.
  case_decide as Hdone; cbn -[shuffle].
  { close_invariant. }
  pose proof (shuffle_Permutation [0; 1; 2; 3] (entropy w)) as Hperm.
  destruct (shuffle [0; 1; 2; 3] (entropy w)) as [shuffled r].
  destruct (sessionQuestions w !! sessionAnswered w) as [idx|] eqn:Hidx;
    cbn -[shuffle] in *.
  - assert (idx < length (questions w)) as Hvalid
      by (eapply H3, list_elem_of_lookup_2, Hidx).
    destruct (lookup_lt_is_Some_2 _ _ Hvalid) as [item Hitem].
    rewrite Hitem. cbn -[shuffle]. rewrite Hbrowse.
    unfold runnerInvariant, entryFaithful, liveQuestion in *; simpl in *.
    destruct Hinv as (I1 & I2 & I3 & I4 & I5 & I6 & I7 & I8 & I9 & I10 & I11).
    repeat split; try done.
    exists idx, item. by repeat split.
  - apply lookup_ge_None in Hidx.
    unfold runnerInvariant, entryFaithful, liveQuestion in *; simpl in *.
    destruct Hinv as (I1 & I2 & I3 & I4 & I5 & I6 & I7 & I8 & I9 & I10 & I11).
    repeat split; try done.
    all: match goal with
         | Hgame : activeScreen _ = gameScreen, Hlive : optionHandlers _ = true
           |- _ => specialize (H5 Hgame Hlive); lia
         end.
Qed.

Lemma runnerInvariant_handlers_off w :
  runnerInvariant w → runnerInvariant (set_optionHandlers false w).
Proof. intros Hinv. close_invariant. Qed.

Lemma nextQuestion_runnerInvariant w :
  sessionInvariant w → runnerInvariant w →
  runnerInvariant (nextQuestion theme w).2.
Proof.
  intros [Hready _] Hinv. unfold nextQuestion. run_M.
  assert (loadReady (set_browseReturnPosition None w)) as Hready'
    by (by eapply loadReady_fields; [..|exact Hready]).
  case_decide as Hdone.
  - unfold showCompletionScreen. run_M. simpl.
    destruct Hready as (H1 & H2 & _). close_invariant.
  - apply loadNextQuestion_runnerInvariant; [done| |done].
    close_invariant.
Qed.

Lemma goForward_runnerInvariant w :
  sessionInvariant w → runnerInvariant w →
  runnerInvariant (goForward theme w).2.
Proof.
  intros [Hready _] Hinv. unfold goForward. run_M.
  destruct (browseReturnPosition w) as [returnPos|] eqn:Hbrowse; simpl; [|done].
  assert (returnPos ≤ sessionAnswered w) as Hreturn.
  { destruct Hinv as (_ & _ & _ & _ & _ & Hb & _). by apply Hb. }
  destruct (decide (returnPos ≤ viewingIndex w + 1)); simpl.
  - destruct (decide (sessionAnswered w ≤ returnPos)); simpl.
    + apply loadNextQuestion_runnerInvariant; [|close_invariant|done].
      by eapply loadReady_fields; [..|exact Hready].
    + destruct (runnerInvariant_entry w returnPos Hinv ltac:(lia))
        as (entry & q & item & Hentry & Hq & Hitem).
      erewrite showReviewQuestion_answered by done. run_M. simpl.
      close_invariant.
  - destruct (runnerInvariant_entry w (viewingIndex w + 1) Hinv ltac:(lia))
      as (entry & q & item & Hentry & Hq & Hitem).
    erewrite showReviewQuestion_answered by done. run_M. simpl.
    rewrite Hbrowse. simpl. close_invariant.
Qed.
End RunnerInvariantFacts.

Section RunnerInvariantHandlers.
Context (theme : Theme).
Implicit Types (w : World).

Lemma selectAnswer_runnerInvariant d w :
  activeScreen w = gameScreen → optionHandlers w = true →
  runnerInvariant w → runnerInvariant (selectAnswer theme d w).2.
Proof.
  intros Hgame Hlive Hinv.
  pose proof Hinv as (I1 & I2 & I3 & I4 & I5 & I6 & I7 & I8 & I9 & I10 & I11).
  destruct (I7 Hgame Hlive)
    as (Hview & Hbrowse & q & item & Hcur & Hsq & Hitem & Hperm & Hccs).
  destruct (selectAnswer_frame theme d w)
    as (Fqs & Fsq & Fscreen & Fhandlers & Fview & Fbrowse & Fcur & Fshuf & Fccs).
  assert (NoDup (currentShuffledOptions w)) as Hnodup
    by (rewrite Hperm; apply (NoDup_seq 0 4)).
  destruct (answeredStats_totals (currentQuestionIndex w)
              (bool_decide (Z.of_nat d = currentCorrectShuffled w)) (userStats w))
    as [Htotal Hcorrect].
  unfold runnerInvariant, entryFaithful, liveQuestion.
  rewrite selectAnswer_sessionScore, selectAnswer_streak, selectAnswer_userStats,
    selectAnswer_answerHistory, selectAnswer_sessionAnswered,
    Fqs, Fsq, Fscreen, Fhandlers, Fview, Fbrowse, Htotal, Hcorrect.
  rewrite Hview, <- I3, arraySet_at_end, correctCount_snoc, length_app. simpl.
  split; [case_bool_decide; lia|]. split; [case_bool_decide; lia|].
  split; [done|]. split.
  { intros i e He. apply lookup_app_Some in He as [He|[Hi He]].
    - by apply I4.
    - apply list_lookup_singleton_Some in He as [Hi0 <-].
      eexists. split; [done|]. exists q, item. simpl.
      replace i with (length (answerHistory w)) by lia.
      rewrite I3, Hccs. repeat split; try done.
      + intros Hd%bool_decide_eq_true_1. by apply indexOf_iff_lookup.
      + intros Hd. apply bool_decide_eq_true_2. by apply indexOf_iff_lookup. }
  split; [lia|]. split; [by rewrite Hbrowse|]. split; [done|]. split; [done|].
  split; [lia|]. split; [case_bool_decide; lia|].
  intros i q' Hi Hq'. destruct (decide (i = length (answerHistory w))) as [->|Hne].
  - rewrite I3, Hsq in Hq'. injection Hq' as <-. rewrite Hcur.
    unfold answeredStats. simpl. apply pushSeen_elem.
  - apply answeredStats_seen_mono. apply (I11 i); [lia|done].
Qed.

(** A session that was reset and selected satisfies the invariant once its
    first question is loaded. *)
Lemma newSession_runnerInvariant bank us r0 selected r w0 :
  selectSessionQuestions bank us r0 = (selected, r) →
  questions w0 = bank →
  sessionQuestions w0 = selected →
  sessionScore w0 = 0 → streak w0 = 0 → sessionAnswered w0 = 0 →
  answerHistory w0 = [] → viewingIndex w0 = 0 →
  browseReturnPosition w0 = None →
  activeScreen w0 = gameScreen →
  (optionHandlers w0 = true → bank ≠ []) →
  runnerInvariant (loadNextQuestion theme w0).2.
Proof.
  intros Hsel Hqs Hsq Hscore Hstreak Hsa Hhist Hview Hbrowse Hscreen Hbank.
  assert (selected = (selectSessionQuestions bank us r0).1)
    as Hselected by (by rewrite Hsel).
  apply loadNextQuestion_runnerInvariant; [| |done].
  - unfold loadReady. rewrite Hqs, Hsq, Hsa, Hselected.
    split; [lia|]. split; [apply selectSessionQuestions_length_le|].
    split; [apply selectSessionQuestions_valid|]. split; [exact Hbank|].
    intros _ Hlive.
    pose proof (selectSessionQuestions_nonempty bank us r0 (Hbank Hlive)) as Hne.
    destruct (selectSessionQuestions bank us r0).1; [done|simpl; lia].
  - unfold runnerInvariant. simpl.
    rewrite Hqs, Hsq, Hscore, Hstreak, Hsa, Hhist, Hview, Hbrowse, Hselected.
    repeat split; try done; try lia.
    all: first [ intros _; apply selectSessionQuestions_length_ge
               | intros i e He; by apply lookup_nil_Some in He
               | intros i q Hi; lia ].
Qed.

Lemma playAgain_runnerInvariant w :
  sessionInvariant w → runnerInvariant (playAgain theme w).2.
Proof.
  intros ((H1 & H2 & H3 & H4 & H5) & H6). unfold playAgain. run_M.
  simpl. destruct (selectSessionQuestions _ _ _) as [selected r] eqn:Hsel.
  simpl. eapply newSession_runnerInvariant; [exact Hsel|done..].
Qed.

Lemma resetProgress_runnerInvariant confirmed w :
  sessionInvariant w → runnerInvariant w →
  runnerInvariant (resetProgress theme confirmed w).2.
Proof.
  intros ((H1 & H2 & H3 & H4 & H5) & H6) Hinv.
  destruct confirmed; [|exact Hinv]. unfold resetProgress. run_M.
  simpl. destruct (selectSessionQuestions _ _ _) as [selected r] eqn:Hsel.
  simpl. eapply newSession_runnerInvariant; [exact Hsel|done..].
Qed.

Lemma startGame_runnerInvariant username w :
  sessionInvariant w → runnerInvariant w →
  runnerInvariant (startGame theme username w).2.
Proof.
  intros ((H1 & H2 & H3 & H4 & H5) & H6) Hinv.
  unfold startGame. case_decide; [exact Hinv|]. run_M.
  simpl. destruct (selectSessionQuestions _ _ _) as [selected r] eqn:Hsel.
  simpl. eapply newSession_runnerInvariant; [exact Hsel|done..].
Qed.

Lemma logout_runnerInvariant w : runnerInvariant (logout w).2.
Proof.
  unfold logout. run_M. simpl. unfold runnerInvariant. simpl.
  repeat split; try done; try lia.
  all: first [ intros i e He; by apply lookup_nil_Some in He
             | intros i q Hi; lia ].
Qed.

Lemma dispatch_runnerInvariant e w o w' :
  dispatch theme e w = Some (o, w') →
  sessionInvariant w → runnerInvariant w → runnerInvariant w'.
Proof.
  assert (∀ (x : Outcome () * World), Some x = Some (o, w') → w' = x.2) as Hsnd
    by (by intros x [= ->]).
  intros Hstep Hsession Hinv. destruct e; unfold dispatch in Hstep.
  - apply Hsnd in Hstep as ->. by apply startGame_runnerInvariant.
  - case_decide as Hguard; [|done]. destruct Hguard as (Hgame & Hlive & _).
    apply Hsnd in Hstep as ->. by apply selectAnswer_runnerInvariant.
  - apply Hsnd in Hstep as ->. by apply nextQuestion_runnerInvariant.
  - apply Hsnd in Hstep as ->. by apply goBack_runnerInvariant.
  - apply Hsnd in Hstep as ->. by apply goForward_runnerInvariant.
  - apply Hsnd in Hstep as ->. by apply playAgain_runnerInvariant.
  - apply Hsnd in Hstep as ->. by apply resetProgress_runnerInvariant.
  - apply Hsnd in Hstep as ->. by apply logout_runnerInvariant.
Qed.

Lemma run_runnerInvariant events w w' :
  run theme events w = Some w' →
  sessionInvariant w → runnerInvariant w → runnerInvariant w'.
Proof.
  revert w. induction events as [|e events IH]; intros w Hrun Hsession Hinv;
    simpl in Hrun.
  - by inversion Hrun; subst.
  - destruct (dispatch theme e w) as [[o w1]|] eqn:Hstep; [|done].
    eapply IH; [done| |].
    + by eapply dispatch_invariant.
    + by eapply dispatch_runnerInvariant.
Qed.

Lemma reachable_runnerInvariant w : reachable theme w → runnerInvariant w.
Proof.
  intros (bank & storage & remembered & r & events & Hrun).
  eapply run_runnerInvariant; [done|apply initialWorld_invariant|].
  unfold runnerInvariant. simpl. repeat split; try done; try lia.
Qed.
End RunnerInvariantHandlers.

(** ** Which handlers return normally *)

Section Outcomes.
Context (theme : Theme).
Implicit Types (w : World).









End Outcomes.




Lemma fullGamePage_reachable : reachable defaultTheme fullGamePage.
Proof.
  exists largeBank, ∅, None, sampleEntropy, fullGame. exact fullGame_runs.
Qed.


Lemma correctCount_le history : correctCount history ≤ length history.
Proof. unfold correctCount. apply length_filter. Qed.

(** X14: the bounds of the session state hold in every reachable state:
    [streak ≤ sessionScore ≤ sessionAnswered ≤ len(sessionQuestions) ≤
    QUESTIONS_PER_GAME]; the position on display and the position to
    return to are at most [sessionAnswered]; the history has one entry per
    answer; and the lifetime counters are at least the session's. *)
Theorem reachable_session_bounds theme w :
  reachable theme w →
  streak w ≤ sessionScore w
  ∧ sessionScore w ≤ sessionAnswered w
  ∧ sessionAnswered w ≤ length (sessionQuestions w)
  ∧ length (sessionQuestions w) ≤ QUESTIONS_PER_GAME
  ∧ viewingIndex w ≤ sessionAnswered w
  ∧ (∀ p, browseReturnPosition w = Some p → p ≤ sessionAnswered w)
  ∧ length (answerHistory w) = sessionAnswered w
  ∧ sessionAnswered w ≤ totalAnswered (userStats w)
  ∧ sessionScore w ≤ totalCorrect (userStats w).
Proof.
  intros Hreach.
  destruct (reachable_invariant theme w Hreach) as ((H1 & H2 & _) & _).
  destruct (reachable_runnerInvariant theme w Hreach)
    as (I1 & I2 & I3 & I4 & I5 & I6 & I7 & I8 & I9 & I10 & I11).
  pose proof (correctCount_le (answerHistory w)).
  repeat split; try done. lia.
Qed.

Lemma reachable_session_bounds_witness :
  sessionScore fullGamePage ≤ sessionAnswered fullGamePage
  ∧ length (answerHistory fullGamePage) = sessionAnswered fullGamePage.
Proof.
  destruct (reachable_session_bounds defaultTheme fullGamePage fullGamePage_reachable)
    as (_ & Hscore & _ & _ & _ & _ & Hhistory & _).
  by split.
Defined.

(** X15: in every reachable state the score is the number of history
    entries marked correct, and the entry of each answered position is
    about the question selected for that position, is marked correct
    exactly when the option shown at the selected display position is the
    correct option of that question, and that question is recorded as
    seen. *)
Theorem reachable_history_faithful theme w :
  reachable theme w →
  sessionScore w = correctCount (answerHistory w)
  ∧ ∀ i, i < sessionAnswered w →
      ∃ entry q item,
        arrayGet (answerHistory w) i = Some entry
        ∧ questionIndex entry = Some q
        ∧ sessionQuestions w !! i = Some q
        ∧ questions w !! q = Some item
        ∧ (isCorrect entry = true
           ↔ shuffledOptions entry !! selectedIndex entry = Some (correct item))
        ∧ q ∈ seenQuestions (userStats w).
Proof.
  intros Hreach.
  destruct (reachable_runnerInvariant theme w Hreach)
    as (I1 & I2 & I3 & I4 & I5 & I6 & I7 & I8 & I9 & I10 & I11).
  split; [done|]. intros i Hi.
  destruct (lookup_lt_is_Some_2 (answerHistory w) i ltac:(lia)) as [e He].
  destruct (I4 i e He) as (entry & -> & q & item & Hq & Hsq & Hitem & Hfaithful).
  exists entry, q, item. unfold arrayGet. rewrite He.
  repeat split; try done; try apply Hfaithful. by apply (I11 i).
Qed.

Lemma reachable_history_faithful_witness :
  sessionScore fullGamePage = correctCount (answerHistory fullGamePage).
Proof.
  apply (reachable_history_faithful defaultTheme fullGamePage fullGamePage_reachable).
Defined.

(** ** Memory and store agree *)

Section SavedFacts.
Context (theme : Theme).
Implicit Types (w : World).

Lemma nextQuestion_sameSession w : sameSession w (nextQuestion theme w).2.
Proof.
  unfold nextQuestion. run_M. case_decide.
  - eapply sameSession_trans; [|apply showCompletionScreen_sameSession].
    by repeat split.
  - eapply sameSession_trans; [|apply loadNextQuestion_sameSession].
    by repeat split.
Qed.




End SavedFacts.



(** ** Progress in good order *)

Section OrderlyFacts.
Context (theme : Theme).
Implicit Types (w : World).

Lemma orderlyStats_empty : orderlyStats emptyStats.
Proof.
  repeat split; simpl; try apply NoDup_nil_2.
  intros i Hi. simpl in Hi. by apply elem_of_nil in Hi.
Qed.

Lemma orderlyStats_answered q b us :
  orderlyStats us → orderlyStats (answeredStats q b us).
Proof.
  intros (Hinv & Hseen & Hcorrect).
  split; [by apply answeredStats_invariant|]. by apply answeredStats_NoDup.
Qed.

Lemma orderly_insert (store : gmap string UserStats) key us :
  orderlyStats us →
  (∀ k us', store !! k = Some us' → orderlyStats us') →
  ∀ k us', <[key := us]> store !! k = Some us' → orderlyStats us'.
Proof.
  intros Hus Hstore k us'. destruct (decide (key = k)) as [->|Hne].
  - rewrite lookup_insert_eq. by intros [= <-].
  - rewrite lookup_insert_ne by done. apply Hstore.
Qed.

Lemma orderlyProgress_sameSession w w' :
  sameSession w w' → orderlyProgress w → orderlyProgress w'.
Proof.
  intros (_ & _ & _ & _ & Hsq & _ & Hstats & _ & Hstore).
  unfold orderlyProgress. by rewrite Hsq, Hstats, Hstore.
Qed.

Lemma orderlyStats_getUserData u w :
  (∀ key us, localStorage w !! key = Some us → orderlyStats us) →
  orderlyStats (getUserData theme u w).
Proof.
  intros Hstore. unfold getUserData.
  destruct (localStorage w !! storageKey theme (Some u)) as [data|] eqn:Hdata.
  - by eapply Hstore.
  - apply orderlyStats_empty.
Qed.

Lemma dispatch_orderlyProgress e w o w' :
  dispatch theme e w = Some (o, w') →
  orderlyProgress w → orderlyProgress w'.
Proof.
  assert (∀ (x : Outcome () * World), Some x = Some (o, w') → w' = x.2) as Hsnd
    by (by intros x [= ->]).
  intros Hstep (Hgood & Hkept & Hsession). destruct e; unfold dispatch in Hstep.
  - apply Hsnd in Hstep as ->. unfold startGame. case_decide; [done|].
    pose proof (orderlyStats_getUserData username w Hkept) as Hloaded.
    destruct (selection_without_repeats (questions w) (getUserData theme username w)
                (entropy w) (proj1 Hloaded)) as [Hnodup _].
    revert Hloaded Hnodup. unfold orderlyProgress, getUserData.
    load_fresh_session theme. rewrite Hsq, Hstats, Hstore. done.
  - case_decide as Hguard; [|done]. apply Hsnd in Hstep as ->.
    pose proof (orderlyStats_answered (currentQuestionIndex w)
                  (bool_decide (Z.of_nat displayIndex = currentCorrectShuffled w))
                  (userStats w) Hgood) as Hanswered.
    destruct (selectAnswer_frame theme displayIndex w) as (_ & Hsq & _).
    unfold orderlyProgress.
    rewrite selectAnswer_localStorage, selectAnswer_userStats, Hsq.
    split; [done|]. split; [|done]. by apply orderly_insert.
  - apply Hsnd in Hstep as ->.
    by eapply orderlyProgress_sameSession; [apply nextQuestion_sameSession|].
  - apply Hsnd in Hstep as ->.
    by eapply orderlyProgress_sameSession; [apply goBack_sameSession|].
  - apply Hsnd in Hstep as ->.
    by eapply orderlyProgress_sameSession; [apply goForward_sameSession|].
  - apply Hsnd in Hstep as ->.
    destruct (selection_without_repeats (questions w) (userStats w) (entropy w)
                (proj1 Hgood)) as [Hnodup _].
    revert Hnodup. unfold playAgain, orderlyProgress.
    load_fresh_session theme. rewrite Hsq, Hstats, Hstore. done.
  - apply Hsnd in Hstep as ->. destruct confirmed; [|done].
    destruct (selection_without_repeats (questions w) emptyStats (entropy w)
                (proj1 orderlyStats_empty)) as [Hnodup _].
    revert Hnodup. unfold resetProgress, orderlyProgress.
    load_fresh_session theme. rewrite Hsq, Hstats, Hstore.
    intros Hnodup. split; [apply orderlyStats_empty|]. split; [|done].
    apply orderly_insert; [apply orderlyStats_empty|done].
  - apply Hsnd in Hstep as ->. unfold logout. run_M. simpl.
    split; [apply orderlyStats_empty|]. split; [done|]. apply NoDup_nil_2.
Qed.
End OrderlyFacts.

(** X17: progress in good order stays in good order.  If in the record in
    memory and in every stored record the correct answers are among the
    seen ones and no index is listed twice, the same holds after any
    sequence of events, and no session then holds a question twice. *)
Theorem orderly_progress_preserved theme events w w' :
  run theme events w = Some w' →
  orderlyProgress w → orderlyProgress w'.
Proof.
  revert w. induction events as [|e events IH]; intros w Hrun Horderly;
    simpl in Hrun.
  - by inversion Hrun; subst.
  - destruct (dispatch theme e w) as [[o w1]|] eqn:Hstep; [|done].
    eapply IH; [done|]. by eapply dispatch_orderlyProgress.
Qed.

Lemma orderly_progress_preserved_witness : orderlyProgress fullGamePage.
Proof.
  apply (orderly_progress_preserved defaultTheme fullGame largePage fullGamePage).
  - exact fullGame_runs.
  - split; [apply orderlyStats_empty|]. split.
    + intros key us Hkey.
      change (localStorage largePage) with (∅ : gmap string UserStats) in Hkey.
      by rewrite lookup_empty in Hkey.
    + apply NoDup_nil_2.
Defined.

(** ** Going back and coming forward again *)

Section BrowseFacts.
Context (theme : Theme).
Implicit Types (w : World).

Lemma showReviewQuestion_position position w :
  viewingIndex (showReviewQuestion position w).2 = viewingIndex w
  ∧ browseReturnPosition (showReviewQuestion position w).2 = browseReturnPosition w.
Proof.
  unfold showReviewQuestion. run_M. split_tests; split; simpl; congruence.
Qed.

Lemma goBack_position w :
  0 < viewingIndex w →
  viewingIndex (goBack w).2 = viewingIndex w - 1
  ∧ browseReturnPosition (goBack w).2
    = Some (default (viewingIndex w) (browseReturnPosition w))
  ∧ sessionAnswered (goBack w).2 = sessionAnswered w.
Proof.
  intros Hpos.
  destruct (goBack_sameSession w) as (_ & _ & _ & _ & _ & Hsa & _).
  split; [|split; [|done]]; unfold goBack; run_M; rewrite decide_False by lia;
    destruct (browseReturnPosition w) eqn:Hcase; simpl;
    match goal with
    | |- context [showReviewQuestion ?p ?w0] =>
        destruct (showReviewQuestion_position p w0) as [Hview Hbrowse]
    end; simpl in Hview, Hbrowse; rewrite ?Hview, ?Hbrowse, ?Hcase; reflexivity.
Qed.

Lemma goForward_position w p :
  browseReturnPosition w = Some p →
  p ≤ sessionAnswered w →
  (p ≤ viewingIndex w + 1 →
     viewingIndex (goForward theme w).2 = p
     ∧ browseReturnPosition (goForward theme w).2 = None)
  ∧ (¬ p ≤ viewingIndex w + 1 →
     viewingIndex (goForward theme w).2 = viewingIndex w + 1
     ∧ browseReturnPosition (goForward theme w).2 = Some p
     ∧ sessionAnswered (goForward theme w).2 = sessionAnswered w).
Proof.
  intros Hbrowse Hreturn.
  destruct (goForward_sameSession theme w) as (_ & _ & _ & _ & _ & Hsa & _).
  split; intros Hreached.
  - unfold goForward. run_M. rewrite Hbrowse. simpl.
    rewrite decide_True by done. simpl.
    destruct (decide (sessionAnswered w ≤ p)) as [Hedge|Hinside]; simpl.
    + destruct (decide (QUESTIONS_PER_GAME ≤ sessionAnswered w)) as [Hdone|Hlive].
      * unfold loadNextQuestion, showCompletionScreen. run_M. simpl.
        by rewrite decide_True.
      * match goal with
        | |- context [loadNextQuestion theme ?w0] =>
            destruct (loadNextQuestion_live theme w0 ltac:(simpl; lia))
              as (-> & -> & _)
        end. simpl. split; [lia|done].
    + match goal with
      | |- context [showReviewQuestion ?q ?w0] =>
          pose proof (showReviewQuestion_position q w0) as [Hview Hb];
          destruct (showReviewQuestion q w0) as [[[]|e] w1]
      end; simpl in *.
      * rewrite Hb. simpl. by rewrite Hview.
      * by rewrite Hview, Hb.
  - unfold goForward. run_M. rewrite Hbrowse. simpl.
    rewrite decide_False by done. simpl.
    match goal with
    | |- context [showReviewQuestion ?q ?w0] =>
        pose proof (showReviewQuestion_position q w0) as [Hview Hb];
        pose proof (showReviewQuestion_sameSession q w0)
          as (_ & _ & _ & _ & _ & Hanswered & _)
    end. simpl in *. by rewrite Hview, Hb, Hanswered.
Qed.

Lemma browse_app ns1 ns2 w :
  browse theme (ns1 ++ ns2) w = browse theme ns2 (browse theme ns1 w).
Proof. revert w. induction ns1 as [|n ns1 IH]; intros w; simpl; [done|]. apply IH. Qed.

Lemma browse_back k w :
  k ≤ viewingIndex w →
  let w' := browse theme (replicate k Back) w in
  viewingIndex w' = viewingIndex w - k
  ∧ sessionAnswered w' = sessionAnswered w
  ∧ browseReturnPosition w'
    = (if k is 0 then browseReturnPosition w
       else Some (default (viewingIndex w) (browseReturnPosition w))).
Proof.
  revert w. induction k as [|k IH]; intros w Hk; simpl.
  { split; [lia|done]. }
  destruct (goBack_position w ltac:(lia)) as (Hview & Hbrowse & Hsa).
  destruct (IH (goBack w).2 ltac:(lia)) as (Hview' & Hsa' & Hbrowse').
  rewrite Hview', Hsa', Hbrowse', Hview, Hsa, Hbrowse.
  split; [lia|]. split; [done|]. by destruct k.
Qed.

Lemma browse_forward k w p :
  browseReturnPosition w = Some p →
  viewingIndex w + S k = p →
  p ≤ sessionAnswered w →
  let w' := browse theme (replicate (S k) Forward) w in
  viewingIndex w' = p ∧ browseReturnPosition w' = None.
Proof.
  revert w. induction k as [|k IH]; intros w Hbrowse Hview Hreturn.
  - destruct (goForward_position w p Hbrowse Hreturn) as [Hexit _].
    simpl. apply Hexit. lia.
  - destruct (goForward_position w p Hbrowse Hreturn) as [_ Hstay].
    destruct (Hstay ltac:(lia)) as (Hview' & Hbrowse' & Hsa').
    change (browse theme (replicate (S (S k)) Forward) w)
      with (browse theme (replicate (S k) Forward) (goForward theme w).2).
    apply IH; [done|lia|lia].
Qed.
End BrowseFacts.

(** X18: going back [k] positions and then forward [k] positions ends
    where it started: from a state outside browse mode whose position on
    display is at least [k] and at most [sessionAnswered], the position on
    display is the same as before and browse mode is left; after the [k]
    steps back alone, the position is [k] lower and the return position is
    the starting one. *)
Theorem back_and_forth_returns theme k w :
  browseReturnPosition w = None →
  0 < k → k ≤ viewingIndex w →
  viewingIndex w ≤ sessionAnswered w →
  let back := browse theme (replicate k Back) w in
  let w' := browse theme (replicate k Back ++ replicate k Forward) w in
  viewingIndex back = viewingIndex w - k
  ∧ browseReturnPosition back = Some (viewingIndex w)
  ∧ viewingIndex w' = viewingIndex w
  ∧ browseReturnPosition w' = None.
Proof.
  intros Hbrowse Hpos Hk Hview back w'.
  destruct (browse_back theme k w Hk) as (Hback & Hsa & Hreturn).
  fold back in Hback, Hsa, Hreturn.
  rewrite Hbrowse in Hreturn. simpl in Hreturn.
  destruct k as [|k]; [lia|].
  split; [done|]. split; [done|].
  unfold w'. rewrite browse_app. fold back.
  apply (browse_forward theme k back (viewingIndex w)); [done|lia|lia].
Qed.

Lemma back_and_forth_returns_witness :
  viewingIndex (browse defaultTheme [Back; Forward] secondQuestionPage)
  = viewingIndex secondQuestionPage
  ∧ browseReturnPosition (browse defaultTheme [Back; Forward] secondQuestionPage)
    = None.
Proof.
  destruct (back_and_forth_returns defaultTheme 1 secondQuestionPage)
    as (_ & _ & Hview & Hbrowse).
  - vm_compute. reflexivity.
  - lia.
  - vm_compute. lia.
  - vm_compute. lia.
  - split; [exact Hview|exact Hbrowse].
Defined.

(** ** The statistics bar *)

Lemma roundedPercent_bounds num den :
  0 < den → num ≤ den → den < 200 →
  (0 ≤ roundedPercent num den ≤ 100)%Z
  ∧ (roundedPercent num den = 100%Z ↔ num = den)
  ∧ (roundedPercent num den = 0%Z ↔ num = 0).
Proof.
  intros Hden Hle Hsmall. unfold roundedPercent.
  set (n := Z.of_nat num). set (d := Z.of_nat den).
  assert (0 ≤ n ≤ d)%Z by lia. assert (0 < d < 200)%Z by lia.
  assert (num = den ↔ n = d) as -> by lia.
  assert (num = 0 ↔ n = 0%Z) as -> by lia.
  clearbody n d.
  pose proof (Z.div_mod (2 * 100 * n + d) (2 * d) ltac:(lia)) as Hdiv.
  pose proof (Z.mod_pos_bound (2 * 100 * n + d) (2 * d) ltac:(lia)) as Hmod.
  set (quotient := ((2 * 100 * n + d) / (2 * d))%Z) in *.
  set (remainder := ((2 * 100 * n + d) mod (2 * d))%Z) in *.
  clearbody quotient remainder.
  split; [nia|]. split; split; intros; subst; nia.
Qed.

(** X19: in every reachable state the statistics bar is within bounds: the
    remaining count that [updateStats] writes is between 0 and
    [QUESTIONS_PER_GAME] and the accuracy between 0 and 100; once a question
    is answered, an accuracy of 100 is shown for a session without a wrong
    answer only, and an accuracy of 0 for a session without a correct answer
    only. *)
Theorem updateStats_within_bounds theme w :
  reachable theme w →
  (0 ≤ remainingDisplay (updateStats w) ≤ Z.of_nat QUESTIONS_PER_GAME)%Z
  ∧ (0 ≤ accuracyDisplay (updateStats w) ≤ 100)%Z
  ∧ (0 < sessionAnswered w →
     (accuracyDisplay (updateStats w) = 100%Z ↔ sessionScore w = sessionAnswered w)
     ∧ (accuracyDisplay (updateStats w) = 0%Z ↔ sessionScore w = 0)).
Proof.
  intros Hreach.
  destruct (reachable_invariant theme w Hreach) as ((Hanswered & Hlength & _) & _).
  destruct (reachable_runnerInvariant theme w Hreach)
    as (_ & Hscore & Hhistory & _).
  pose proof (correctCount_le (answerHistory w)) as Hcount.
  assert (QUESTIONS_PER_GAME = 20) as Hgame by reflexivity.
  unfold updateStats. simpl.
  split; [lia|].
  destruct (decide (0 < sessionAnswered w)) as [Hsome|Hnone].
  - destruct (roundedPercent_bounds (sessionScore w) (sessionAnswered w))
      as (Hbounds & Hfull & Hzero); [lia..|].
    split; [done|]. by intros _.
  - split; [lia|]. intros; lia.
Qed.

Lemma updateStats_within_bounds_witness :
  (0 ≤ accuracyDisplay (updateStats fullGamePage) ≤ 100)%Z.
Proof.
  apply (updateStats_within_bounds defaultTheme fullGamePage).
  exact fullGamePage_reachable.
Defined.
